(** * NFTget: locating and enriching NFT records

    A shallow embedding of [src/common/NFTget.ts] and a verification of the
    properties its specification states about it.

    The module is a set of [async] functions over external collaborators
    (the ledger connection, the metadata program library, axios, the event
    emitter).  An [async] function is embedded as a finite tree of awaited
    requests ([Async]); the orchestrating functions, which also await a
    [Promise.all], are embedded as [Main].  JavaScript objects are finite
    maps from property names to values.  [console.log] calls are left out:
    they return nothing and nothing reads what they print. *)

From stdpp Require Import base option list strings gmap fin_maps pretty.

Set Default Proof Using "Type".
Local Open Scope string_scope.
Local Open Scope list_scope.
Local Open Scope nat_scope.

(** ** Data *)

(** A ledger address, in its base58 text form.  [new PublicKey(s)] of an
    address that was decoded from the ledger is the address itself. *)
Definition PublicKey : Type := string.

Definition new_PublicKey (s : string) : PublicKey := s.

(** What can be thrown: an [Error] with its message, or the [TypeError] that
    the language raises itself. *)
Inductive Error : Type :=
| Err (msg : string)
| TypeError (msg : string).

Definition InvalidSelector : Error :=
  Err "You must pass one of owner / creators / mint / updateAuthority".

(** [programs.metadata.Metadata]: an on-chain metadata account. *)
Record MetadataDataData : Type :=
  { name : string; symbol : string; uri : string; creators_listed : list PublicKey }.

Record MetadataData : Type :=
  { md_updateAuthority : PublicKey; md_mint : string; md_data : MetadataDataData }.

Record Metadata : Type :=
  { pubkey : PublicKey; data : MetadataData }.

(** Raw account as [Account.getInfo] gives it; [info_data] is the byte
    buffer. *)
Record AccountInfo : Type :=
  { info_owner : PublicKey; info_data : list Z }.

Record EditionData : Type :=
  { parent : string; edition : N }.

Record MasterEditionData : Type :=
  { supply : N; maxSupply : option N }.

(** One entry of [getTokenLargestAccounts(mint).value]. *)
Record TokenAccountBalancePair : Type :=
  { address : PublicKey; amount : N }.

Record TokenAccountInfo : Type :=
  { token_owner : PublicKey; token_amount : N }.

Record MintInfo : Type :=
  { mint_supply : N; mint_decimals : N }.

(** The parsed body of an HTTP response: a JSON document, kept as text. *)
Definition Json : Type := string.

Record AxiosResponse : Type :=
  { response_data : Json }.

(** [LoadStatus] and [UpdateLoadingParams] of [composables/loading]; only
    [LoadStatus.Loading] is used here. *)
Inductive LoadStatus : Type := Loading.

Record UpdateLoadingParams : Type :=
  { newStatus : LoadStatus; newProgress : Z; maxProgress : Z; newText : string }.

(** Modelled from the spec: [getEnumKeyByEnumValue] of [helpers/util] and the
    [MetadataKey] enum it lists are not under src/.  The specification names
    the four classifications an edition lookup can give. *)
Inductive EditionType : Type := MasterV1 | MasterV2 | PrintV1 | Unknown.

(** Values of object properties. *)
Inductive Value : Type :=
| VUndefined
| VPublicKey (k : PublicKey)
| VMetadataData (d : MetadataData)
| VTokenAccount (t : TokenAccountInfo)
| VMintInfo (m : MintInfo)
| VJson (j : Json)
| VEditionType (t : EditionType)
| VEditionData (d : EditionData)
| VMasterEditionData (d : MasterEditionData)
| VEmptyObject.

#[global] Instance Error_eq_dec : EqDecision Error.
Proof. solve_decision. Defined.
#[global] Instance MetadataDataData_eq_dec : EqDecision MetadataDataData.
Proof. solve_decision. Defined.
#[global] Instance MetadataData_eq_dec : EqDecision MetadataData.
Proof. solve_decision. Defined.
#[global] Instance EditionData_eq_dec : EqDecision EditionData.
Proof. solve_decision. Defined.
#[global] Instance MasterEditionData_eq_dec : EqDecision MasterEditionData.
Proof. solve_decision. Defined.
#[global] Instance TokenAccountInfo_eq_dec : EqDecision TokenAccountInfo.
Proof. solve_decision. Defined.
#[global] Instance MintInfo_eq_dec : EqDecision MintInfo.
Proof. solve_decision. Defined.
#[global] Instance EditionType_eq_dec : EqDecision EditionType.
Proof. solve_decision. Defined.
#[global] Instance Value_eq_dec : EqDecision Value.
Proof. solve_decision. Defined.

(** A JavaScript object.  [o[key]] of a property that is not there is
    [undefined]. *)
Abbreviation Obj := (gmap string Value).

Definition get_prop (o : Obj) (key : string) : Value :=
  default VUndefined (o !! key).

(** [{...a, ...b}]: the properties of [b] win. *)
Definition spread2 (a b : Obj) : Obj := b ∪ a.

(** [a === b] on property values.  Addresses are compared by the address
    they hold. *)
Definition strict_equal (a b : Value) : bool := bool_decide (a = b).

(** ** Requests to the collaborators

    Each one is an awaited call that the collaborator answers or fails.
    [EE_emit] is [EE.emit], the call to the progress sink; it is synchronous
    and is recorded like the awaited ones. *)

(** The filter object of [Metadata.findMany]. *)
Inductive FindManyFilter : Type :=
| by_creators (creators : list PublicKey)
| by_updateAuthority (updateAuthority : PublicKey)
| by_mint (mint : PublicKey).

Inductive Call : Type -> Type :=
| FindByOwnerV2 (owner : PublicKey) : Call (list Metadata)
| FindMany (filter : FindManyFilter) : Call (list Metadata)
| GetTokenLargestAccounts (mint : PublicKey) : Call (option (list TokenAccountBalancePair))
| AxiosGet (uri : string) : Call (option AxiosResponse)
| Edition_getPDA (mint : PublicKey) : Call PublicKey
| Account_getInfo (pda : PublicKey) : Call (option AccountInfo)
| DeserializeTokenAccount (mint : PublicKey) (address : Value) : Call TokenAccountInfo
| DeserializeTokenMint (mint : PublicKey) : Call MintInfo
| EE_emit (event : string) (params : UpdateLoadingParams) : Call bool.

(** A call with its result type forgotten, for traces. *)
Inductive SomeCall : Type :=
| some_call {X : Type} (c : Call X).

(** The world: what each collaborator answers.  Within one run the same
    call gets the same answer. *)
Definition World : Type := ∀ X : Type, Call X → Error + X.

(** ** Async functions *)

Inductive Async (A : Type) : Type :=
| Ret (a : A)
| Throw (e : Error)
| Vis {X : Type} (c : Call X) (k : Error + X → Async A).

Arguments Ret {A} a.
Arguments Throw {A} e.
Arguments Vis {A X} c k.

Fixpoint bind {A B : Type} (p : Async A) (f : A → Async B) : Async B :=
  match p with
  | Ret a => f a
  | Throw e => Throw e
  | Vis c k => Vis c (λ r, bind (k r) f)
  end.

(** [await] of a collaborator's promise: a rejection is thrown at the
    [await]. *)
Definition await {X : Type} (c : Call X) : Async X :=
  Vis c (λ r, match r with inl e => Throw e | inr x => Ret x end).

(** [try { p } catch (e) { h e }]. *)
Fixpoint try_catch {A : Type} (p : Async A) (h : Error → Async A) : Async A :=
  match p with
  | Ret a => Ret a
  | Throw e => h e
  | Vis c k => Vis c (λ r, try_catch (k r) h)
  end.

(** A synchronous library call that may throw. *)
Definition lift {A : Type} (r : Error + A) : Async A :=
  match r with inl e => Throw e | inr a => Ret a end.

#[global] Instance Async_ret : MRet Async := λ A a, Ret a.
#[global] Instance Async_bind : MBind Async := λ A B f p, bind p f.

(** Running an async function alone against a world: what it settles with
    and the calls it made, in order. *)
Fixpoint run {A : Type} (W : World) (p : Async A) : (Error + A) * list SomeCall :=
  match p with
  | Ret a => (inr a, [])
  | Throw e => (inl e, [])
  | Vis c k => let '(r, tr) := run W (k (W _ c)) in (r, some_call c :: tr)
  end.

Definition result {A : Type} (W : World) (p : Async A) : Error + A := (run W p).1.
Definition calls {A : Type} (W : World) (p : Async A) : list SomeCall := (run W p).2.

(** The orchestrating functions: they await async functions one after the
    other and, once, a [Promise.all] over a list of them. *)
Inductive Main (A : Type) : Type :=
| Return (a : A)
| Raise (e : Error)
| Await {X : Type} (p : Async X) (k : X → Main A)
| AwaitAll {B : Type} (tasks : list (Async B)) (k : list B → Main A).

Arguments Return {A} a.
Arguments Raise {A} e.
Arguments Await {A X} p k.
Arguments AwaitAll {A B} tasks k.

(** ** The metadata program library

    [programs.metadata] of the metaplex library is not part of this
    repository: the values of the three [MetadataKey] members that the code
    names and the two account decoders it constructs are parameters.
    [Edition_data pda info] is [new Edition(pda, info).data] and
    [MasterEdition_data pda info] is [new MasterEdition(pda, info).data]; a
    constructor throws on an account it cannot decode. *)
Class MetadataProgram : Type :=
  { MetadataKey_EditionV1 : Z;
    MetadataKey_MasterEditionV1 : Z;
    MetadataKey_MasterEditionV2 : Z;
    MetadataKey_distinct :
      NoDup [MetadataKey_EditionV1; MetadataKey_MasterEditionV1; MetadataKey_MasterEditionV2];
    Edition_data : PublicKey → option AccountInfo → Error + EditionData;
    MasterEdition_data : PublicKey → option AccountInfo → Error + MasterEditionData }.

(** ** Helpers of [helpers/util] and [helpers/spl-token] *)

(** What [okToFailAsync] can resolve with: what the callback returned,
    [undefined], or the empty object. *)
Inductive Fallible (A : Type) : Type :=
| Returned (a : A)
| Undefined
| EmptyObject.

Arguments Returned {A} a.
Arguments Undefined {A}.
Arguments EmptyObject {A}.

(** Modelled from the spec: [okToFailAsync] of [helpers/util] is not under
    src/.  It is the failure-tolerant adapter: it runs the operation on its
    arguments and, when that fails, the error is caught and converted to an
    absent value, or to an empty structure where the call site asks for one
    (a third argument [true]). *)
Definition okToFailAsync {A : Type} (callback : Async A) (wantObject : bool)
  : Async (Fallible A) :=
  try_catch (x ← callback; Ret (Returned x))
            (λ _, Ret (if wantObject then EmptyObject else Undefined)).

(** The value as a property value or an argument. *)
Definition as_value (r : Fallible Value) : Value :=
  match r with
  | Returned v => v
  | Undefined => VUndefined
  | EmptyObject => VEmptyObject
  end.

(** [...r] inside an object literal: [undefined] spreads to nothing. *)
Definition spread (r : Fallible Obj) : Obj :=
  match r with
  | Returned o => o
  | Undefined | EmptyObject => ∅
  end.

(** [({ k1, k2 } = r)]: destructuring [undefined] is a [TypeError]. *)
Definition destructure2 (r : Fallible Obj) (k1 k2 : string) : Error + Value * Value :=
  match r with
  | Returned o => inr (get_prop o k1, get_prop o k2)
  | EmptyObject => inr (VUndefined, VUndefined)
  | Undefined => inl (TypeError ("Cannot destructure property '" +:+ k1 +:+ "' of undefined"))
  end.

(** Modelled from the spec: [joinArraysOnKey] of [helpers/util] is not under
    src/.  The enrichment results are merged back onto the base records by
    equality of the key: an ordered projection over the base sequence that
    looks each key up in the enrichment results and attaches what it finds;
    a base record is kept even when nothing is found for it. *)
Definition joinArraysOnKey (arr1 arr2 : list Obj) (key : string) : list Obj :=
  (λ a, match List.find (λ b, strict_equal (get_prop b key) (get_prop a key)) arr2 with
        | Some b => spread2 a b
        | None => a
        end) <$> arr1.

(** Modelled from the spec: [deserializeTokenAccount] and
    [deserializeTokenMint] of [helpers/spl-token] are not under src/.  Each
    decodes one binary layout into structured fields and is an independent
    fallible step. *)
Definition deserializeTokenAccount (mint : PublicKey) (address : Value) : Async Value :=
  t ← await (DeserializeTokenAccount mint address); Ret (VTokenAccount t).

Definition deserializeTokenMint (mint : PublicKey) : Async Value :=
  m ← await (DeserializeTokenMint mint); Ret (VMintInfo m).

(** ** Getters *)

Definition getMetadataByCreators (creators : list PublicKey) : Async (list Metadata) :=
  nfts ← await (FindMany (by_creators creators)); Ret nfts.

Definition getMetadataByUpdateAuthority (updateAuthority : PublicKey) : Async (list Metadata) :=
  nfts ← await (FindMany (by_updateAuthority updateAuthority)); Ret nfts.

Definition getMetadataByMint (mint : PublicKey) : Async (list Metadata) :=
  nfts ← await (FindMany (by_mint mint)); Ret nfts.

Definition getMetadataByOwner (owner : PublicKey) : Async (list Metadata) :=
  nfts ← await (FindByOwnerV2 owner); Ret nfts.

Definition getHolderByMint (mint : PublicKey) : Async Value :=
  tokens ← await (GetTokenLargestAccounts mint);
  match tokens with
  | Some (first :: _) => Ret (VPublicKey (address first))
  | _ => Ret VUndefined
  end.

Definition getExternalMetadata (uri : string) : Async Value :=
  response ← await (AxiosGet uri);
  match response with
  | Some response => Ret (VJson (response_data response))
  | None => Ret VUndefined
  end.

(** ** Deserializers *)

(** The base record of an NFT ([INFT] of [helpers/types]) as
    [deserializeMetadataOnchain] builds it; the enrichment adds the other
    properties. *)
Record INFT : Type :=
  { mint : PublicKey; metadataPDA : PublicKey; metadataOnchain : MetadataData }.

Definition INFT_obj (n : INFT) : Obj :=
  {[ "mint" := VPublicKey (mint n);
     "metadataPDA" := VPublicKey (metadataPDA n);
     "metadataOnchain" := VMetadataData (metadataOnchain n) ]}.

Definition INFT_of (m : Metadata) : INFT :=
  {| mint := new_PublicKey (md_mint (data m));
     metadataPDA := pubkey m;
     metadataOnchain := data m |}.

Definition deserializeMetadataOnchain (metadatas : list Metadata) : list INFT :=
  INFT_of <$> metadatas.

(** [INFTParams]: the selector; a property that was not passed is [None]. *)
Record INFTParams : Type :=
  { sel_owner : option PublicKey;
    sel_creators : option (list PublicKey);
    sel_mint : option PublicKey;
    sel_updateAuthority : option PublicKey }.

Definition loading_found (n : nat) : UpdateLoadingParams :=
  {| newStatus := Loading;
     newProgress := 50;
     maxProgress := 90;
     newText := "Found a total of " +:+ pretty n +:+ " NFTs. Fetching metadata..." |}.

(** The leading tag of the account that was fetched: [info?.data[0]]. *)
Definition leading_tag (info : option AccountInfo) : option Z :=
  info ≫= (λ i, head (info_data i)).

Section WithMetadataProgram.
Context `{MetadataProgram}.

(** Modelled from the spec: [getEnumKeyByEnumValue] of [helpers/util] is not
    under src/.  Applied to [MetadataKey] and the leading tag it gives the
    classification: the tag of a numbered edition is a print, the two master
    tags are the corresponding master, any other tag and no tag at all are
    unknown. *)
Definition getEnumKeyByEnumValue (key : option Z) : EditionType :=
  if decide (key = Some MetadataKey_EditionV1) then PrintV1
  else if decide (key = Some MetadataKey_MasterEditionV1) then MasterV1
  else if decide (key = Some MetadataKey_MasterEditionV2) then MasterV2
  else Unknown.

Definition getParentEdition (editionData : EditionData) : Async Obj :=
  let masterEditionPDA := new_PublicKey (parent editionData) in
  masterInfo ← await (Account_getInfo masterEditionPDA);
  masterEditionData ← lift (MasterEdition_data masterEditionPDA masterInfo);
  Ret {[ "masterEditionPDA" := VPublicKey masterEditionPDA;
         "masterEditionData" := VMasterEditionData masterEditionData ]}.

Definition getEditionInfoByMint (mint : PublicKey) : Async Obj :=
  pda ← await (Edition_getPDA mint);
  info ← await (Account_getInfo pda);
  let key := leading_tag info in
  let editionType := getEnumKeyByEnumValue key in
  '(editionPDA, editionData, masterEditionPDA, masterEditionData) ←
    (if decide (key = Some MetadataKey_EditionV1) then
       editionData ← lift (Edition_data pda info);
       r ← okToFailAsync (getParentEdition editionData) false;
       '(masterEditionPDA, masterEditionData) ←
         lift (destructure2 r "masterEditionPDA" "masterEditionData");
       Ret (VPublicKey pda, VEditionData editionData, masterEditionPDA, masterEditionData)
     else if decide (key = Some MetadataKey_MasterEditionV1
                     ∨ key = Some MetadataKey_MasterEditionV2) then
       masterEditionData ← lift (MasterEdition_data pda info);
       Ret (VUndefined, VUndefined, VPublicKey pda, VMasterEditionData masterEditionData)
     else Ret (VUndefined, VUndefined, VUndefined, VUndefined));
  Ret {[ "editionType" := VEditionType editionType;
         "editionPDA" := editionPDA;
         "editionData" := editionData;
         "masterEditionPDA" := masterEditionPDA;
         "masterEditionData" := masterEditionData ]}.

(** ** Together *)

(** The async callback that [turnMetadatasIntoNFTs] maps over the base
    records. *)
Definition enrichNFT (n : INFT) : Async Obj :=
  address ← okToFailAsync (getHolderByMint (new_PublicKey (md_mint (metadataOnchain n)))) false;
  let address := as_value address in
  splTokenInfo ← okToFailAsync (deserializeTokenAccount (mint n) address) false;
  splMintInfo ← okToFailAsync (deserializeTokenMint (mint n)) false;
  metadataExternal ← okToFailAsync (getExternalMetadata (uri (md_data (metadataOnchain n)))) false;
  editionInfo ← okToFailAsync (getEditionInfoByMint (mint n)) true;
  Ret (spread2 {[ "mint" := VPublicKey (mint n);
                  "address" := address;
                  "splTokenInfo" := as_value splTokenInfo;
                  "splMintInfo" := as_value splMintInfo;
                  "metadataExternal" := as_value metadataExternal ]}
               (spread editionInfo)).

Definition turnMetadatasIntoNFTs (metadatas : list Metadata) : Main (list Obj) :=
  let NFTs := deserializeMetadataOnchain metadatas in
  AwaitAll (enrichNFT <$> NFTs) (λ enrichedNFTs,
  Return (joinArraysOnKey (INFT_obj <$> NFTs) enrichedNFTs "mint")).

(** The first half of [getNFTs]: the chain that assigns [metadatas], or
    throws. *)
Definition getNFTs_metadatas (params : INFTParams) : Async (list Metadata) :=
  let '{| sel_owner := owner; sel_creators := creators;
          sel_mint := mint; sel_updateAuthority := updateAuthority |} := params in
  if owner is Some owner then
    getMetadataByOwner owner
  else if creators is Some (c :: cs) then
    getMetadataByCreators (c :: cs)
  else if mint is Some mint then
    getMetadataByMint mint
  else if updateAuthority is Some updateAuthority then
    getMetadataByUpdateAuthority updateAuthority
  else
    Throw InvalidSelector.

(** The second half: what [getNFTs] does with [metadatas]. *)
Definition getNFTs_located (metadatas : list Metadata) : Main (list Obj) :=
  if decide (length metadatas = 0) then Return []
  else Await (await (EE_emit "loading" (loading_found (length metadatas))))
             (λ _, turnMetadatasIntoNFTs metadatas).

Definition getNFTs (params : INFTParams) : Main (list Obj) :=
  Await (getNFTs_metadatas params) getNFTs_located.

End WithMetadataProgram.

(** ** Running the orchestrator

    The record tasks of a [Promise.all] are in flight together.  Each one
    ran, when it was created, up to its first [await]; from then on a
    schedule says which task's pending request is answered next.  The
    promise of [Promise.all] rejects with the first task that rejects and
    fulfils once every task has fulfilled. *)

Inductive Who : Type :=
| Orchestrator
| RecordTask (i : nat).

Inductive Event : Type :=
| Issue (w : Who) (c : SomeCall)
| Reply (w : Who) (c : SomeCall).

Inductive Outcome (A : Type) : Type :=
| Fulfilled (a : A)
| Rejected (e : Error)
| Pending.

Arguments Fulfilled {A} a.
Arguments Rejected {A} e.
Arguments Pending {A}.

Definition rejection {B : Type} (t : Async B) : option Error :=
  match t with Throw e => Some e | _ => None end.

Definition fulfilment {B : Type} (t : Async B) : option B :=
  match t with Ret b => Some b | _ => None end.

Definition settled {B : Type} (ts : list (Async B)) : option (Outcome (list B)) :=
  match head (omap rejection ts) with
  | Some e => Some (Rejected e)
  | None => Fulfilled <$> mapM fulfilment ts
  end.

(** The request a task is suspended on, as it is issued. *)
Definition first_issue {B : Type} (i : nat) (t : Async B) : list Event :=
  match t with
  | Vis c _ => [Issue (RecordTask i) (some_call c)]
  | _ => []
  end.

Fixpoint promise_all_loop {B : Type} (W : World) (sched : list nat) (ts : list (Async B))
  : Outcome (list B) * list Event * list nat :=
  match settled ts with
  | Some o => (o, [], sched)
  | None =>
    match sched with
    | [] => (Pending, [], [])
    | i :: sched' =>
      match ts !! i with
      | Some (Vis c k) =>
        let t' := k (W _ c) in
        let '(o, evs, rest) := promise_all_loop W sched' (<[i := t']> ts) in
        (o, Reply (RecordTask i) (some_call c) :: first_issue i t' ++ evs, rest)
      | _ => promise_all_loop W sched' ts
      end
    end
  end.

(** Creating the tasks, from index [i] on: each runs up to its first
    [await]. *)
Fixpoint initial_issues {B : Type} (i : nat) (tasks : list (Async B)) : list Event :=
  match tasks with
  | [] => []
  | t :: tasks => first_issue i t ++ initial_issues (S i) tasks
  end.

Definition promise_all {B : Type} (W : World) (sched : list nat) (tasks : list (Async B))
  : Outcome (list B) * list Event * list nat :=
  let '(o, evs, rest) := promise_all_loop W sched tasks in
  (o, initial_issues 0 tasks ++ evs, rest).

Definition orchestrator_events (cs : list SomeCall) : list Event :=
  cs ≫= λ c, [Issue Orchestrator c; Reply Orchestrator c].

Fixpoint exec {A : Type} (W : World) (sched : list nat) (m : Main A)
  : Outcome A * list Event :=
  match m with
  | Return a => (Fulfilled a, [])
  | Raise e => (Rejected e, [])
  | Await p k =>
    let '(r, cs) := run W p in
    match r with
    | inl e => (Rejected e, orchestrator_events cs)
    | inr x => let '(o, tr) := exec W sched (k x) in (o, orchestrator_events cs ++ tr)
    end
  | AwaitAll tasks k =>
    let '(o, evs, rest) := promise_all W sched tasks in
    match o with
    | Fulfilled bs => let '(o', tr) := exec W rest (k bs) in (o', evs ++ tr)
    | Rejected e => (Rejected e, evs)
    | Pending => (Pending, evs)
    end
  end.

(** ** What is observed of a run *)

Definition who (ev : Event) : Who :=
  match ev with Issue w _ | Reply w _ => w end.

Definition call_of (ev : Event) : SomeCall :=
  match ev with Issue _ c | Reply _ c => c end.

#[global] Instance Who_eq_dec : EqDecision Who.
Proof. solve_decision. Defined.

(** The events of one record task, and the events a task produces when it
    runs alone to its end: each request is issued, then answered, before the
    next one is issued. *)
Definition of_task (i : nat) (evs : list Event) : list Event :=
  filter (λ ev, who ev = RecordTask i) evs.

Definition task_events (i : nat) (cs : list SomeCall) : list Event :=
  cs ≫= λ c, [Issue (RecordTask i) c; Reply (RecordTask i) c].

(** How many requests a task had issued when its first answer came. *)
Fixpoint issued_before_first_answer (evs : list Event) : nat :=
  match evs with
  | Issue _ _ :: evs => S (issued_before_first_answer evs)
  | _ => 0
  end.

(** How many times the schedule gives a turn to task [i]. *)
Definition turns (i : nat) (sched : list nat) : nat :=
  length (filter (λ j, j = i) sched).

(** A schedule is complete for the tasks when it gives every task at least
    as many turns as the task has requests to be answered. *)
Definition complete {B : Type} (W : World) (sched : list nat) (ts : list (Async B)) : Prop :=
  ∀ i t, ts !! i = Some t → length (calls W t) ≤ turns i sched.

Definition is_locator_call (c : SomeCall) : bool :=
  match c with
  | some_call (FindByOwnerV2 _) | some_call (FindMany _) => true
  | _ => false
  end.

Definition is_emit_call (c : SomeCall) : bool :=
  match c with
  | some_call (EE_emit _ _) => true
  | _ => false
  end.

Definition is_enrichment_call (c : SomeCall) : bool :=
  negb (is_locator_call c) && negb (is_emit_call c).

(** What [okToFailAsync] resolves with, given how the callback settled. *)
Definition tolerated {A : Type} (r : Error + A) (wantObject : bool) : Fallible A :=
  match r with
  | inr a => Returned a
  | inl _ => if wantObject then EmptyObject else Undefined
  end.

(** The object that [getEditionInfoByMint] returns. *)
Definition EditionInfo (editionType : EditionType)
    (editionPDA editionData masterEditionPDA masterEditionData : Value) : Obj :=
  {[ "editionType" := VEditionType editionType;
     "editionPDA" := editionPDA;
     "editionData" := editionData;
     "masterEditionPDA" := masterEditionPDA;
     "masterEditionData" := masterEditionData ]}.

(** An event of the enrichment: a record task issuing a lookup or getting
    its answer. *)
Definition is_enrichment_event (ev : Event) : bool :=
  match who ev with
  | RecordTask _ => is_enrichment_call (call_of ev)
  | Orchestrator => false
  end.

(** The calls that a trace issues, in order. *)
Definition issued (tr : list Event) : list SomeCall :=
  omap (λ ev, match ev with Issue _ c => Some c | Reply _ _ => None end) tr.

Definition locator_queries (tr : list Event) : list SomeCall :=
  filter is_locator_call (issued tr).

Definition emissions (tr : list Event) : list SomeCall :=
  filter is_emit_call (issued tr).

Definition enrichment_events (tr : list Event) : list Event :=
  filter is_enrichment_event tr.




Section Observations.
Context `{MetadataProgram} (W : World).

(** What the enrichment of one record resolves with: every lookup is wrapped
    in the adapter, so the task itself cannot reject. *)
Definition enriched (n : INFT) : Obj :=
  let address :=
    as_value (tolerated (result W (getHolderByMint (new_PublicKey (md_mint (metadataOnchain n))))) false) in
  spread2 {[ "mint" := VPublicKey (mint n);
             "address" := address;
             "splTokenInfo" :=
               as_value (tolerated (result W (deserializeTokenAccount (mint n) address)) false);
             "splMintInfo" :=
               as_value (tolerated (result W (deserializeTokenMint (mint n))) false);
             "metadataExternal" :=
               as_value (tolerated (result W (getExternalMetadata (uri (md_data (metadataOnchain n))))) false) ]}
          (spread (tolerated (result W (getEditionInfoByMint (mint n))) true)).

(** The merged collection: the base records, each with the enrichment found
    for its mint. *)
Definition merged (metadatas : list Metadata) : list Obj :=
  let NFTs := deserializeMetadataOnchain metadatas in
  joinArraysOnKey (INFT_obj <$> NFTs) (enriched <$> NFTs) "mint".

(** The three properties that a record has from its base record. *)
Definition base_props (o : Obj) : Value * Value * Value :=
  (get_prop o "mint", get_prop o "metadataPDA", get_prop o "metadataOnchain").

(** The record tasks of a base record set. *)
Definition record_tasks (metadatas : list Metadata) : list (Async Obj) :=
  enrichNFT <$> deserializeMetadataOnchain metadatas.

(** The emission of [getNFTs] for the records that were found. *)
Definition emit_found (metadatas : list Metadata) : SomeCall :=
  some_call (EE_emit "loading" (loading_found (length metadatas))).

(** The lookups of one record in the order its task makes them: the holder,
    the token account of the holder that was found, the token mint, the
    external metadata, then the calls of the edition resolution. *)
Definition lookups (m : Metadata) : list SomeCall :=
  let n := INFT_of m in
  let address :=
    as_value (tolerated (result W (getHolderByMint (new_PublicKey (md_mint (metadataOnchain n))))) false) in
  [some_call (GetTokenLargestAccounts (new_PublicKey (md_mint (metadataOnchain n))));
   some_call (DeserializeTokenAccount (mint n) address);
   some_call (DeserializeTokenMint (mint n));
   some_call (AxiosGet (uri (md_data (metadataOnchain n))))]
  ++ calls W (getEditionInfoByMint (mint n)).

End Observations.

(** ** Worlds given by one answer function per collaborator *)

Record Collaborators : Type :=
  { on_findByOwnerV2 : PublicKey → Error + list Metadata;
    on_findMany : FindManyFilter → Error + list Metadata;
    on_getTokenLargestAccounts : PublicKey → Error + option (list TokenAccountBalancePair);
    on_axios_get : string → Error + option AxiosResponse;
    on_getPDA : PublicKey → Error + PublicKey;
    on_getInfo : PublicKey → Error + option AccountInfo;
    on_deserializeTokenAccount : PublicKey → Value → Error + TokenAccountInfo;
    on_deserializeTokenMint : PublicKey → Error + MintInfo;
    on_emit : string → UpdateLoadingParams → Error + bool }.

Definition world_of (C : Collaborators) : World :=
  λ X c,
    match c in Call X return Error + X with
    | FindByOwnerV2 owner => on_findByOwnerV2 C owner
    | FindMany filter => on_findMany C filter
    | GetTokenLargestAccounts mint => on_getTokenLargestAccounts C mint
    | AxiosGet uri => on_axios_get C uri
    | Edition_getPDA mint => on_getPDA C mint
    | Account_getInfo pda => on_getInfo C pda
    | DeserializeTokenAccount mint address => on_deserializeTokenAccount C mint address
    | DeserializeTokenMint mint => on_deserializeTokenMint C mint
    | EE_emit event params => on_emit C event params
    end.

(** ** Two concrete worlds

    A small ledger used to run the code on explicit inputs.  The metadata
    program has its tags 1, 2 and 6; an edition account is its tag followed
    by the edition number, a master edition account its tag followed by the
    supply, and anything shorter does not decode. *)

Definition second_byte (info : option AccountInfo) : option Z :=
  info ≫= λ i, info_data i !! 1.

Definition metaplex : MetadataProgram :=
  {| MetadataKey_EditionV1 := 1;
     MetadataKey_MasterEditionV1 := 2;
     MetadataKey_MasterEditionV2 := 6;
     MetadataKey_distinct :=
       ltac:(repeat constructor; rewrite ?elem_of_cons, ?elem_of_nil; intuition congruence);
     Edition_data pda info :=
       match second_byte info with
       | Some n => inr {| parent := "parent-of-" +:+ pda; edition := Z.to_N n |}
       | None => inl (Err "malformed edition")
       end;
     MasterEdition_data pda info :=
       match second_byte info with
       | Some n => inr {| supply := Z.to_N n; maxSupply := None |}
       | None => inl (Err "malformed master edition")
       end |}.

Definition nft (m : string) : Metadata :=
  {| pubkey := "metadata-of-" +:+ m;
     data := {| md_updateAuthority := "authority";
                md_mint := m;
                md_data := {| name := "nft"; symbol := "NFT";
                              uri := "https://x/" +:+ m +:+ ".json";
                              creators_listed := ["creator"] |} |} |}.

Definition account (bytes : list Z) : Error + option AccountInfo :=
  inr (Some {| info_owner := "metadata-program"; info_data := bytes |}).

(** Mint A is a master edition, B a print whose parent is on the ledger, C a
    print whose parent cannot be fetched, D a master edition account that
    does not decode, E has no edition account ([null]), F has an account of
    another kind; fetching the edition account of any other mint fails. *)
Definition ledger : Collaborators :=
  {| on_findByOwnerV2 _ := inr [nft "A"; nft "B"];
     on_findMany filter :=
       match filter with
       | by_creators _ => inr [nft "B"; nft "C"]
       | by_mint m => inr [nft m]
       | by_updateAuthority _ => inr []
       end;
     on_getTokenLargestAccounts m :=
       inr (Some [ {| address := "holder-of-" +:+ m; amount := 1 |};
                   {| address := "somebody-else"; amount := 0 |} ]);
     on_axios_get u := inr (Some {| response_data := "{}" |});
     on_getPDA m := inr ("edition-of-" +:+ m);
     on_getInfo pda :=
       if decide (pda = "edition-of-A") then account [6; 1]%Z
       else if decide (pda = "edition-of-B") then account [1; 7]%Z
       else if decide (pda = "parent-of-edition-of-B") then account [6; 10]%Z
       else if decide (pda = "edition-of-C") then account [1; 3]%Z
       else if decide (pda = "edition-of-D") then account [6]%Z
       else if decide (pda = "edition-of-E") then inr None
       else if decide (pda = "edition-of-F") then account [4; 0]%Z
       else inl (Err "account not found");
     on_deserializeTokenAccount m a := inr {| token_owner := "owner"; token_amount := 1 |};
     on_deserializeTokenMint m := inr {| mint_supply := 1; mint_decimals := 0 |};
     on_emit _ _ := inr true |}.


Definition select (owner : option PublicKey) (creators : option (list PublicKey))
    (mint updateAuthority : option PublicKey) : INFTParams :=
  {| sel_owner := owner; sel_creators := creators;
     sel_mint := mint; sel_updateAuthority := updateAuthority |}.

(** A ledger that cannot be reached at all: the locator fails too. *)
Definition down : Collaborators :=
  {| on_findByOwnerV2 _ := inl (Err "connection refused");
     on_findMany _ := inl (Err "connection refused");
     on_getTokenLargestAccounts _ := inl (Err "connection refused");
     on_axios_get _ := inl (Err "connection refused");
     on_getPDA _ := inl (Err "connection refused");
     on_getInfo _ := inl (Err "connection refused");
     on_deserializeTokenAccount _ _ := inl (Err "connection refused");
     on_deserializeTokenMint _ := inl (Err "connection refused");
     on_emit _ _ := inr true |}.

(** The ledger of [ledger] with a progress sink whose listener throws. *)
Definition mute : Collaborators :=
  {| on_findByOwnerV2 := on_findByOwnerV2 ledger;
     on_findMany := on_findMany ledger;
     on_getTokenLargestAccounts := on_getTokenLargestAccounts ledger;
     on_axios_get := on_axios_get ledger;
     on_getPDA := on_getPDA ledger;
     on_getInfo := on_getInfo ledger;
     on_deserializeTokenAccount := on_deserializeTokenAccount ledger;
     on_deserializeTokenMint := on_deserializeTokenMint ledger;
     on_emit _ _ := inl (Err "listener failed") |}.

(** The ledger of [ledger] with one more mint, G, whose edition account
    carries the first version of the master edition tag and whose external
    metadata cannot be fetched. *)
Definition archive : Collaborators :=
  {| on_findByOwnerV2 := on_findByOwnerV2 ledger;
     on_findMany := on_findMany ledger;
     on_getTokenLargestAccounts := on_getTokenLargestAccounts ledger;
     on_axios_get u :=
       if decide (u = "https://x/G.json") then inl (Err "404") else on_axios_get ledger u;
     on_getPDA := on_getPDA ledger;
     on_getInfo pda :=
       if decide (pda = "edition-of-G") then account [2; 5]%Z else on_getInfo ledger pda;
     on_deserializeTokenAccount := on_deserializeTokenAccount ledger;
     on_deserializeTokenMint := on_deserializeTokenMint ledger;
     on_emit := on_emit ledger |}.



(** * Verification *)

(** ** Running async functions: equations *)

Section RunEquations.
Context (W : World).

Lemma run_fst_snd {A : Type} (p : Async A) : run W p = (result W p, calls W p).
Proof. unfold result, calls. by destruct (run W p). Qed.

Lemma result_Vis {A X : Type} (c : Call X) (k : Error + X → Async A) :
  result W (Vis c k) = result W (k (W _ c)).
Proof. unfold result. simpl. by destruct (run W (k (W X c))). Qed.

Lemma calls_Vis {A X : Type} (c : Call X) (k : Error + X → Async A) :
  calls W (Vis c k) = some_call c :: calls W (k (W _ c)).
Proof. unfold calls. simpl. by destruct (run W (k (W X c))). Qed.

Lemma result_bind {A B : Type} (p : Async A) (f : A → Async B) :
  result W (p ≫= f) = match result W p with
                      | inr a => result W (f a)
                      | inl e => inl e
                      end.
Proof.
  induction p as [a|e|X c k IH]; [done..|].
  change (Vis c k ≫= f) with (Vis c (λ r, k r ≫= f)).
  by rewrite !result_Vis, IH.
Qed.

Lemma calls_bind {A B : Type} (p : Async A) (f : A → Async B) :
  calls W (p ≫= f) = calls W p ++ match result W p with
                                  | inr a => calls W (f a)
                                  | inl _ => []
                                  end.
Proof.
  induction p as [a|e|X c k IH]; [done..|].
  change (Vis c k ≫= f) with (Vis c (λ r, k r ≫= f)).
  by rewrite !calls_Vis, result_Vis, IH.
Qed.

Lemma result_try_catch {A : Type} (p : Async A) (h : Error → Async A) :
  result W (try_catch p h) = match result W p with
                             | inr a => inr a
                             | inl e => result W (h e)
                             end.
Proof.
  induction p as [a|e|X c k IH]; [done..|].
  simpl try_catch. by rewrite !result_Vis, IH.
Qed.

Lemma calls_try_catch {A : Type} (p : Async A) (h : Error → Async A) :
  calls W (try_catch p h) = calls W p ++ match result W p with
                                         | inr _ => []
                                         | inl e => calls W (h e)
                                         end.
Proof.
  induction p as [a|e|X c k IH]; [done..|].
  simpl try_catch. by rewrite !calls_Vis, result_Vis, IH.
Qed.

Lemma result_await {X : Type} (c : Call X) : result W (await c) = W _ c.
Proof. unfold await. rewrite result_Vis. by destruct (W X c). Qed.

Lemma calls_await {X : Type} (c : Call X) : calls W (await c) = [some_call c].
Proof. unfold await. rewrite calls_Vis. by destruct (W X c). Qed.

Lemma result_lift {A : Type} (r : Error + A) : result W (lift r) = r.
Proof. by destruct r. Qed.

Lemma calls_lift {A : Type} (r : Error + A) : calls W (lift r) = [].
Proof. by destruct r. Qed.

Lemma result_Ret {A : Type} (a : A) : result W (Ret a) = inr a.
Proof. done. Qed.

Lemma calls_Ret {A : Type} (a : A) : calls W (Ret a) = [].
Proof. done. Qed.

(** The adapter never throws: it resolves with what the callback returned or
    with the default, and makes the callback's calls. *)
Lemma result_okToFailAsync {A : Type} (callback : Async A) (wantObject : bool) :
  result W (okToFailAsync callback wantObject)
  = inr match result W callback with
        | inr a => Returned a
        | inl _ => if wantObject then EmptyObject else Undefined
        end.
Proof.
  unfold okToFailAsync. rewrite result_try_catch, result_bind.
  by destruct (result W callback).
Qed.

Lemma calls_okToFailAsync {A : Type} (callback : Async A) (wantObject : bool) :
  calls W (okToFailAsync callback wantObject) = calls W callback.
Proof.
  unfold okToFailAsync. rewrite calls_try_catch, calls_bind, result_bind.
  destruct (result W callback); simpl; by rewrite ?app_nil_r.
Qed.

End RunEquations.

#[local] Arguments mbind : simpl never.

Create Rewrite HintDb async.
#[local] Hint Rewrite @result_bind @calls_bind @result_await @calls_await
  @result_lift @calls_lift @result_Ret @calls_Ret
  @result_okToFailAsync @calls_okToFailAsync : async.

(** ** The promise of [Promise.all] *)

Section PromiseAll.
Context {B : Type} (W : World).
Implicit Types (ts : list (Async B)) (t : Async B) (sched : list nat).

Lemma settled_Fulfilled ts bs :
  settled ts = Some (Fulfilled bs) → ts = Ret <$> bs.
Proof.
  unfold settled. destruct (head _); [done|].
  intros Hm. apply fmap_Some in Hm as (bs' & Hm & [= <-]).
  apply mapM_Some in Hm.
  induction Hm as [|t b ts bs' Ht Hm IH]; [done|].
  destruct t; by simplify_eq/=.
Qed.

Lemma settled_Rejected ts e :
  settled ts = Some (Rejected e) → Throw e ∈ ts.
Proof.
  unfold settled. destruct (head _) as [e'|] eqn:Hh.
  - intros [= <-]. apply head_Some_elem_of in Hh.
    apply list_elem_of_omap in Hh as (t & Ht & Hr).
    destruct t; simplify_eq/=. done.
  - intros Hm. by apply fmap_Some in Hm as (? & _ & ?).
Qed.

Lemma settled_Pending ts o : settled ts = Some o → o ≠ Pending.
Proof.
  unfold settled. destruct (head _); [by intros [= <-]|].
  intros Hm. apply fmap_Some in Hm as (? & _ & ->). done.
Qed.

(** When the promise is not settled, some task is suspended on a request. *)
Lemma settled_None ts :
  settled ts = None → ∃ i X (c : Call X) k, ts !! i = Some (Vis c k).
Proof.
  unfold settled. destruct (head _) eqn:Hh; [done|].
  intros Hm. apply fmap_None in Hm.
  induction ts as [|t ts IH]; [done|].
  destruct t as [b|e|X c k].
  - simpl in Hm.
    destruct IH as (i & X & c & k & Hi); [done|by destruct (mapM fulfilment ts)|].
    by exists (S i), X, c, k.
  - done.
  - by exists 0, X, c, k.
Qed.

Lemma promise_all_loop_unfold sched ts :
  promise_all_loop W sched ts
  = match settled ts with
    | Some o => (o, [], sched)
    | None =>
      match sched with
      | [] => (Pending, [], [])
      | i :: sched' =>
        match ts !! i with
        | Some (Vis c k) =>
          let t' := k (W _ c) in
          let '(o, evs, rest) := promise_all_loop W sched' (<[i := t']> ts) in
          (o, Reply (RecordTask i) (some_call c) :: first_issue i t' ++ evs, rest)
        | _ => promise_all_loop W sched' ts
        end
      end
    end.
Proof. by destruct sched. Qed.

(** Case analysis on one round of the loop. *)
Lemma promise_all_loop_cases sched ts o evs rest :
  promise_all_loop W sched ts = (o, evs, rest) →
  (settled ts = Some o ∧ evs = [] ∧ rest = sched)
  ∨ (settled ts = None ∧ sched = [] ∧ o = Pending ∧ evs = [])
  ∨ (∃ i sched' X (c : Call X) k evs',
       settled ts = None ∧ sched = i :: sched' ∧ ts !! i = Some (Vis c k)
       ∧ promise_all_loop W sched' (<[i := k (W _ c)]> ts) = (o, evs', rest)
       ∧ evs = Reply (RecordTask i) (some_call c) :: first_issue i (k (W _ c)) ++ evs')
  ∨ (∃ i sched',
       settled ts = None ∧ sched = i :: sched'
       ∧ (∀ X (c : Call X) k, ts !! i ≠ Some (Vis c k))
       ∧ promise_all_loop W sched' ts = (o, evs, rest)).
Proof.
  rewrite promise_all_loop_unfold. destruct (settled ts) as [o'|] eqn:Hs.
  { intros ?; simplify_eq. by left. }
  destruct sched as [|i sched'].
  { intros ?; simplify_eq. right; by left. }
  destruct (ts !! i) as [[b|e|X c k]|] eqn:Hi.
  - intros Hl. do 3 right. exists i, sched'. by repeat split; try congruence.
  - intros Hl. do 3 right. exists i, sched'. by repeat split; try congruence.
  - simpl. destruct (promise_all_loop W sched' _) as [[o' evs'] rest'] eqn:Hl.
    intros ?; simplify_eq. right; right; left. by exists i, sched', X, c, k, evs'.
  - intros Hl. do 3 right. exists i, sched'. by repeat split; try congruence.
Qed.

(** What the promise settles with is what the tasks settle with when each
    runs alone against the same world. *)
Lemma promise_all_loop_results sched ts o evs rest :
  promise_all_loop W sched ts = (o, evs, rest) →
  match o with
  | Fulfilled bs => result W <$> ts = inr <$> bs
  | Rejected e => inl e ∈ result W <$> ts
  | Pending => True
  end.
Proof.
  revert ts evs. induction sched as [|j sched IH]; intros ts evs Hl;
    apply promise_all_loop_cases in Hl
      as [(Hs & _ & _)|[(_ & Hnil & -> & _)|[(i & s' & X & c & k & evs' & _ & [= -> ->] & Hi & Hl & _)|
          (i & s' & _ & [= -> ->] & _ & Hl)]]];
    try done; try by eapply IH.
  - destruct o as [bs|e|]; [| |done].
    + apply settled_Fulfilled in Hs as ->. by rewrite <-list_fmap_compose.
    + apply settled_Rejected in Hs.
      by apply (list_elem_of_fmap_2 (result W)) in Hs.
  - destruct o as [bs|e|]; [| |done].
    + apply settled_Fulfilled in Hs as ->. by rewrite <-list_fmap_compose.
    + apply settled_Rejected in Hs.
      by apply (list_elem_of_fmap_2 (result W)) in Hs.
  - apply IH in Hl. rewrite list_fmap_insert, list_insert_id in Hl; [done|].
    by rewrite list_lookup_fmap, Hi, <-result_Vis.
Qed.

(** A complete schedule settles the promise. *)
Lemma promise_all_loop_complete sched ts :
  complete W sched ts → (promise_all_loop W sched ts).1.1 ≠ Pending.
Proof.
  revert ts. induction sched as [|j sched IH]; intros ts Hc;
    destruct (promise_all_loop W _ ts) as [[o evs] rest] eqn:Hl;
    apply promise_all_loop_cases in Hl
      as [(Hs & _ & _)|[(Hs & Hnil & -> & _)|[(i & s' & X & c & k & evs' & _ & [= -> ->] & Hi & Hl & _)|
          (i & s' & _ & [= -> ->] & Hi & Hl)]]];
    try done; try by eapply settled_Pending.
  - apply settled_None in Hs as (i & X & c & k & Hi).
    apply Hc in Hi. rewrite calls_Vis in Hi. unfold turns in Hi. simpl in Hi. lia.
  - specialize (IH (<[i := k (W _ c)]> ts)). rewrite Hl in IH. apply IH.
    intros i' t' Hi'. destruct (decide (i = i')) as [<-|Hne].
    + rewrite list_lookup_insert_eq in Hi' by by eapply lookup_lt_Some.
      injection Hi' as <-. apply Hc in Hi. rewrite calls_Vis in Hi.
      unfold turns in *. rewrite filter_cons_True in Hi by done. simpl in Hi. lia.
    + rewrite list_lookup_insert_ne in Hi' by done.
      apply Hc in Hi'. unfold turns in *. by rewrite filter_cons_False in Hi' by done.
  - specialize (IH ts). rewrite Hl in IH. apply IH.
    intros i' t' Hi'. destruct (decide (i = i')) as [<-|Hne].
    + destruct t' as [b|e|X c k]; [simpl; lia..|]. by destruct (Hi X c k).
    + apply Hc in Hi'. unfold turns in *. by rewrite filter_cons_False in Hi' by done.
Qed.

Lemma of_task_first_issue i j t :
  of_task i (first_issue j t) = if decide (i = j) then first_issue j t else [].
Proof.
  unfold of_task. destruct t as [b|e|X c k]; simpl; [by case_decide..|].
  case_decide as Hij.
  - subst. by rewrite filter_cons_True.
  - rewrite filter_cons_False; [done|]. simpl. congruence.
Qed.

Lemma task_events_Vis i {X : Type} (c : Call X) (k : Error + X → Async B) :
  task_events i (calls W (Vis c k))
  = Issue (RecordTask i) (some_call c) :: Reply (RecordTask i) (some_call c)
    :: task_events i (calls W (k (W _ c))).
Proof. by rewrite calls_Vis. Qed.

Lemma first_issue_prefix i t : first_issue i t `prefix_of` task_events i (calls W t).
Proof.
  destruct t as [b|e|X c k]; simpl; [apply prefix_nil..|].
  rewrite task_events_Vis. apply prefix_cons, prefix_nil.
Qed.

(** The events of the loop are events of the tasks, and the events of each
    task, in the order they happened, are the beginning of what the task
    does when it runs alone: a task has one request in flight at a time.
    Once the promise has fulfilled, they are all of it. *)
Lemma promise_all_loop_events sched ts o evs rest :
  promise_all_loop W sched ts = (o, evs, rest) →
  Forall (λ ev, ∃ i, who ev = RecordTask i ∧ i < length ts) evs
  ∧ ∀ i t, ts !! i = Some t →
      first_issue i t ++ of_task i evs `prefix_of` task_events i (calls W t)
      ∧ (∀ bs, o = Fulfilled bs →
           first_issue i t ++ of_task i evs = task_events i (calls W t)).
Proof.
  revert ts evs. induction sched as [|j sched IH]; intros ts evs Hl;
    apply promise_all_loop_cases in Hl
      as [(Hs & -> & _)|[(_ & Hnil & -> & ->)|[(i & s' & X & c & k & evs' & _ & [= -> ->] & Hi & Hl & ->)|
          (i & s' & _ & [= -> ->] & _ & Hl)]]];
    try done; try by eapply IH.
  - split; [done|]. intros i t Hi. rewrite app_nil_r. split; [apply first_issue_prefix|].
    intros bs ->. apply settled_Fulfilled in Hs as ->.
    apply list_lookup_fmap_Some in Hi as (b & -> & _). done.
  - split; [done|]. intros i t Hi. rewrite app_nil_r. split; [apply first_issue_prefix|done].
  - split; [done|]. intros i t Hi. rewrite app_nil_r. split; [apply first_issue_prefix|].
    intros bs ->. apply settled_Fulfilled in Hs as ->.
    apply list_lookup_fmap_Some in Hi as (b & -> & _). done.
  - apply IH in Hl as [Hwho Htask]. rewrite length_insert in Hwho. split.
    + constructor; [exists i; split; [done|by eapply lookup_lt_Some]|].
      apply Forall_app; split; [|done].
      destruct (k (W X c)); repeat constructor.
      exists i. split; [done|by eapply lookup_lt_Some].
    + intros i' t Hi'.
      assert (of_task i' (Reply (RecordTask i) (some_call c) :: first_issue i (k (W X c)) ++ evs')
              = (if decide (i' = i) then [Reply (RecordTask i) (some_call c)] else [])
                ++ (if decide (i' = i) then first_issue i (k (W X c)) else [])
                ++ of_task i' evs') as ->.
      { rewrite <-of_task_first_issue. unfold of_task.
        rewrite filter_cons, filter_app. simpl who.
        repeat case_decide; (done || congruence). } destruct (decide (i' = i)) as [->|Hne].
      * rewrite Hi in Hi'. injection Hi' as <-.
        simpl first_issue. rewrite task_events_Vis.
        destruct (Htask i (k (W X c))) as [Hp He].
        { apply list_lookup_insert_eq. by eapply lookup_lt_Some. }
        split; [by do 2 apply prefix_cons|].
        intros bs Hbs. simpl. do 2 f_equal. by eapply He.
      * simpl. apply Htask. by rewrite list_lookup_insert_ne.
Qed.

Lemma of_task_initial_issues ts n i :
  of_task i (initial_issues n ts)
  = if decide (n ≤ i) then from_option (first_issue i) [] (ts !! (i - n)) else [].
Proof.
  revert n. induction ts as [|t ts IH]; intros n; simpl.
  { by case_decide. }
  unfold of_task in *. rewrite filter_app, IH.
  fold (of_task i (first_issue n t)). rewrite of_task_first_issue.
  repeat case_decide; try lia; subst.
  - by rewrite Nat.sub_diag, app_nil_r.
  - by replace (i - n) with (S (i - S n)) by lia.
  - done.
Qed.

Lemma initial_issues_who ts n :
  Forall (λ ev, ∃ i, who ev = RecordTask i ∧ n ≤ i < n + length ts) (initial_issues n ts).
Proof.
  revert n. induction ts as [|t ts IH]; intros n; simpl; [done|].
  apply Forall_app; split.
  - destruct t; repeat constructor. exists n. split; [done|lia].
  - eapply Forall_impl; [apply IH|]. intros ev (i & ? & ?). exists i. split; [done|lia].
Qed.

Lemma promise_all_results sched ts o evs rest :
  promise_all W sched ts = (o, evs, rest) →
  match o with
  | Fulfilled bs => result W <$> ts = inr <$> bs
  | Rejected e => inl e ∈ result W <$> ts
  | Pending => True
  end.
Proof.
  unfold promise_all. destruct (promise_all_loop W sched ts) as [[o' evs'] rest'] eqn:Hl.
  intros ?; simplify_eq. by eapply promise_all_loop_results.
Qed.

Lemma promise_all_complete sched ts :
  complete W sched ts → (promise_all W sched ts).1.1 ≠ Pending.
Proof.
  intros Hc. apply promise_all_loop_complete in Hc. unfold promise_all.
  by destruct (promise_all_loop W sched ts) as [[o' evs'] rest'].
Qed.

Lemma promise_all_events sched ts o evs rest :
  promise_all W sched ts = (o, evs, rest) →
  (∃ evs', evs = initial_issues 0 ts ++ evs')
  ∧ Forall (λ ev, ∃ i, who ev = RecordTask i ∧ i < length ts) evs
  ∧ ∀ i t, ts !! i = Some t →
      of_task i evs `prefix_of` task_events i (calls W t)
      ∧ (∀ bs, o = Fulfilled bs → of_task i evs = task_events i (calls W t)).
Proof.
  unfold promise_all. destruct (promise_all_loop W sched ts) as [[o' evs'] rest'] eqn:Hl.
  intros ?; simplify_eq. apply promise_all_loop_events in Hl as [Hwho Htask].
  split; [by eexists|]. split.
  - apply Forall_app; split; [|done].
    eapply Forall_impl; [apply initial_issues_who|]. intros ev (i & ? & ?). exists i.
    split; [done|lia].
  - intros i t Hi. unfold of_task. rewrite filter_app.
    fold (of_task i (initial_issues 0 ts)). fold (of_task i evs').
    rewrite of_task_initial_issues, decide_True, Nat.sub_0_r, Hi by lia. simpl.
    by apply Htask.
Qed.

Lemma first_issue_take i t : first_issue i t = take 1 (task_events i (calls W t)).
Proof. destruct t as [b|e|X c k]; [done..|]. by rewrite task_events_Vis. Qed.

Lemma turns_cons i j sched :
  turns i (j :: sched) = if decide (j = i) then S (turns i sched) else turns i sched.
Proof. unfold turns. rewrite filter_cons. by case_decide. Qed.

(** As long as no task rejects, a task has got exactly the answers that the
    schedule brought for it, and has issued its next request after each: how
    far it is depends on its own turns only, not on the other tasks. *)
Lemma promise_all_loop_progress sched ts o evs rest :
  promise_all_loop W sched ts = (o, evs, rest) →
  (∀ e, o ≠ Rejected e) →
  ∀ i t, ts !! i = Some t →
    first_issue i t ++ of_task i evs
    = take (S (2 * turns i sched)) (task_events i (calls W t)).
Proof.
  revert ts evs. induction sched as [|j0 sched0 IH]; intros ts evs Hl Ho i t Hi;
    apply promise_all_loop_cases in Hl
      as [(Hs & -> & _)|[(_ & Hnil & _ & ->)|[(j & sched & X & c & k & evs' & _ & [= -> ->] & Hj & Hl & ->)|
          (j & sched & _ & [= -> ->] & Hj & Hl)]]];
    try done.
  - destruct o as [bs|e|]; [|by destruct (Ho e)|by apply settled_Pending in Hs].
    apply settled_Fulfilled in Hs as ->.
    by apply list_lookup_fmap_Some in Hi as (b & -> & _).
  - rewrite app_nil_r. apply first_issue_take.
  - destruct o as [bs|e|]; [|by destruct (Ho e)|by apply settled_Pending in Hs].
    apply settled_Fulfilled in Hs as ->.
    by apply list_lookup_fmap_Some in Hi as (b & -> & _).
  - assert (of_task i (Reply (RecordTask j) (some_call c) :: first_issue j (k (W X c)) ++ evs')
            = (if decide (i = j) then [Reply (RecordTask j) (some_call c)] else [])
              ++ (if decide (i = j) then first_issue j (k (W X c)) else [])
              ++ of_task i evs') as ->.
    { rewrite <-of_task_first_issue. unfold of_task.
      rewrite filter_cons, filter_app. simpl who.
      repeat case_decide; (done || congruence). }
    rewrite turns_cons. destruct (decide (i = j)) as [->|Hne].
    + rewrite Hj in Hi. injection Hi as <-. rewrite decide_True by done.
      simpl first_issue. rewrite task_events_Vis.
      replace (S (2 * S (turns j sched))) with (S (S (S (2 * turns j sched)))) by lia.
      simpl. do 2 f_equal. apply (IH _ _ Hl Ho).
      apply list_lookup_insert_eq. by eapply lookup_lt_Some.
    + rewrite decide_False by done. simpl. apply (IH _ _ Hl Ho).
      by rewrite list_lookup_insert_ne.
  - rewrite turns_cons. destruct (decide (j = i)) as [->|Hne]; [|by apply (IH _ _ Hl Ho)].
    specialize (IH _ _ Hl Ho i t Hi).
    destruct t as [b|e|X c k]; [| |by destruct (Hj X c k)];
      by simpl in *.
Qed.

Lemma promise_all_progress sched ts o evs rest :
  promise_all W sched ts = (o, evs, rest) →
  (∀ e, o ≠ Rejected e) →
  ∀ i t, ts !! i = Some t →
    of_task i evs = take (S (2 * turns i sched)) (task_events i (calls W t)).
Proof.
  unfold promise_all. destruct (promise_all_loop W sched ts) as [[o' evs'] rest'] eqn:Hl.
  intros ? Ho i t Hi; simplify_eq.
  unfold of_task. rewrite filter_app.
  fold (of_task i (initial_issues 0 ts)). fold (of_task i evs').
  rewrite of_task_initial_issues, decide_True, Nat.sub_0_r, Hi by lia. simpl.
  by eapply promise_all_loop_progress.
Qed.

End PromiseAll.

(** ** The getters, run against a world *)

Lemma EditionInfo_props t a b c d :
  get_prop (EditionInfo t a b c d) "editionType" = VEditionType t
  ∧ get_prop (EditionInfo t a b c d) "editionPDA" = a
  ∧ get_prop (EditionInfo t a b c d) "editionData" = b
  ∧ get_prop (EditionInfo t a b c d) "masterEditionPDA" = c
  ∧ get_prop (EditionInfo t a b c d) "masterEditionData" = d.
Proof. by vm_compute. Qed.

Section Getters.
Context `{MetadataProgram} (W : World).

Lemma result_getHolderByMint mint :
  result W (getHolderByMint mint)
  = match W _ (GetTokenLargestAccounts mint) with
    | inl e => inl e
    | inr (Some (first :: _)) => inr (VPublicKey (address first))
    | inr _ => inr VUndefined
    end.
Proof.
  unfold getHolderByMint. rewrite result_bind, result_await.
  by destruct (W _ _) as [e|[[|first rest]|]].
Qed.

Lemma calls_getHolderByMint mint :
  calls W (getHolderByMint mint) = [some_call (GetTokenLargestAccounts mint)].
Proof.
  unfold getHolderByMint. rewrite calls_bind, calls_await, result_await.
  by destruct (W _ _) as [e|[[|first rest]|]].
Qed.

Lemma result_getExternalMetadata uri :
  result W (getExternalMetadata uri)
  = match W _ (AxiosGet uri) with
    | inl e => inl e
    | inr (Some response) => inr (VJson (response_data response))
    | inr None => inr VUndefined
    end.
Proof.
  unfold getExternalMetadata. rewrite result_bind, result_await.
  by destruct (W _ _) as [e|[response|]].
Qed.

Lemma calls_getExternalMetadata uri :
  calls W (getExternalMetadata uri) = [some_call (AxiosGet uri)].
Proof.
  unfold getExternalMetadata. rewrite calls_bind, calls_await, result_await.
  by destruct (W _ _) as [e|[response|]].
Qed.

Lemma calls_deserializeTokenAccount mint address :
  calls W (deserializeTokenAccount mint address)
  = [some_call (DeserializeTokenAccount mint address)].
Proof.
  unfold deserializeTokenAccount. rewrite calls_bind, calls_await, result_await.
  by destruct (W _ _).
Qed.

Lemma calls_deserializeTokenMint mint :
  calls W (deserializeTokenMint mint) = [some_call (DeserializeTokenMint mint)].
Proof.
  unfold deserializeTokenMint. rewrite calls_bind, calls_await, result_await.
  by destruct (W _ _).
Qed.

Lemma calls_getParentEdition editionData :
  calls W (getParentEdition editionData)
  = [some_call (Account_getInfo (new_PublicKey (parent editionData)))].
Proof.
  unfold getParentEdition.
  rewrite calls_bind, calls_await, result_await.
  destruct (W _ _) as [e|masterInfo]; [done|].
  rewrite calls_bind, calls_lift, result_lift.
  by destruct (MasterEdition_data _ _).
Qed.

(** The calls of an edition resolution: the derived address, the primary
    account, and, for a print whose data decodes, the parent account. *)
Lemma calls_getEditionInfoByMint mint :
  calls W (getEditionInfoByMint mint)
  = some_call (Edition_getPDA mint)
    :: match W _ (Edition_getPDA mint) with
       | inl _ => []
       | inr pda =>
         some_call (Account_getInfo pda)
         :: match W _ (Account_getInfo pda) with
            | inl _ => []
            | inr info =>
              if decide (leading_tag info = Some MetadataKey_EditionV1) then
                match Edition_data pda info with
                | inl _ => []
                | inr editionData =>
                  [some_call (Account_getInfo (new_PublicKey (parent editionData)))]
                end
              else []
            end
       end.
Proof.
  unfold getEditionInfoByMint, leading_tag.
  rewrite calls_bind, calls_await, result_await. simpl. f_equal.
  destruct (W _ (Edition_getPDA mint)) as [e|pda]; [done|].
  rewrite calls_bind, calls_await, result_await. simpl. f_equal.
  destruct (W _ (Account_getInfo pda)) as [e|info]; [done|].
  rewrite calls_bind.
  match goal with |- _ ++ ?m = _ => assert (m = []) as -> end.
  { by destruct (result W _) as [e|[[[??]?]?]]. }
  rewrite app_nil_r. set (key := info ≫= _).
  destruct (decide (key = Some MetadataKey_EditionV1)) as [Hk|Hk].
  - rewrite calls_bind, calls_lift, result_lift. simpl.
    destruct (Edition_data pda info) as [e|editionData]; [done|].
    rewrite calls_bind, calls_okToFailAsync, result_okToFailAsync,
      calls_getParentEdition, calls_bind, calls_lift, result_lift. simpl.
    by destruct (destructure2 _ _ _) as [e|[??]].
  - destruct (decide (_ ∨ _)).
    + rewrite calls_bind, calls_lift, result_lift. simpl.
      by destruct (MasterEdition_data pda info).
    + done.
Qed.

Lemma result_getParentEdition editionData :
  result W (getParentEdition editionData)
  = let masterEditionPDA := new_PublicKey (parent editionData) in
    match W _ (Account_getInfo masterEditionPDA) with
    | inl e => inl e
    | inr masterInfo =>
      match MasterEdition_data masterEditionPDA masterInfo with
      | inl e => inl e
      | inr masterEditionData =>
        inr {[ "masterEditionPDA" := VPublicKey masterEditionPDA;
               "masterEditionData" := VMasterEditionData masterEditionData ]}
      end
    end.
Proof.
  unfold getParentEdition. rewrite result_bind, result_await. simpl.
  destruct (W _ _) as [e|masterInfo]; [done|].
  rewrite result_bind, result_lift.
  by destruct (MasterEdition_data _ _).
Qed.

(** What an edition resolution settles with. *)
Lemma result_getEditionInfoByMint mint :
  result W (getEditionInfoByMint mint)
  = match W _ (Edition_getPDA mint) with
    | inl e => inl e
    | inr pda =>
      match W _ (Account_getInfo pda) with
      | inl e => inl e
      | inr info =>
        let key := leading_tag info in
        if decide (key = Some MetadataKey_EditionV1) then
          match Edition_data pda info with
          | inl e => inl e
          | inr editionData =>
            match destructure2 (tolerated (result W (getParentEdition editionData)) false)
                               "masterEditionPDA" "masterEditionData" with
            | inl e => inl e
            | inr (masterEditionPDA, masterEditionData) =>
              inr (EditionInfo (getEnumKeyByEnumValue key) (VPublicKey pda)
                     (VEditionData editionData) masterEditionPDA masterEditionData)
            end
          end
        else if decide (key = Some MetadataKey_MasterEditionV1
                        ∨ key = Some MetadataKey_MasterEditionV2) then
          match MasterEdition_data pda info with
          | inl e => inl e
          | inr masterEditionData =>
            inr (EditionInfo (getEnumKeyByEnumValue key) VUndefined VUndefined
                   (VPublicKey pda) (VMasterEditionData masterEditionData))
          end
        else
          inr (EditionInfo (getEnumKeyByEnumValue key)
                 VUndefined VUndefined VUndefined VUndefined)
      end
    end.
Proof.
  unfold getEditionInfoByMint, leading_tag.
  rewrite result_bind, result_await.
  destruct (W _ (Edition_getPDA mint)) as [e|pda]; [done|].
  rewrite result_bind, result_await.
  destruct (W _ (Account_getInfo pda)) as [e|info]; [done|].
  rewrite result_bind. simpl. set (key := info ≫= _).
  destruct (decide (key = Some MetadataKey_EditionV1)) as [Hk|Hk].
  - rewrite result_bind, result_lift.
    destruct (Edition_data pda info) as [e|editionData]; [done|].
    rewrite result_bind, result_okToFailAsync, result_bind, result_lift.
    fold (tolerated (result W (getParentEdition editionData)) false).
    by destruct (destructure2 _ _ _) as [e|[??]].
  - destruct (decide (_ ∨ _)); [|done].
    rewrite result_bind, result_lift.
    by destruct (MasterEdition_data pda info).
Qed.

Lemma calls_getEditionInfoByMint_enrichment mint :
  Forall is_enrichment_call (calls W (getEditionInfoByMint mint)).
Proof.
  rewrite calls_getEditionInfoByMint.
  repeat (first [case_match | case_decide]; simpl); by repeat constructor.
Qed.

End Getters.

(** ** One record's enrichment *)

Section Enrichment.
Context `{MetadataProgram} (W : World).

Lemma result_enrichNFT n : result W (enrichNFT n) = inr (enriched W n).
Proof.
  unfold enrichNFT, enriched.
  repeat (rewrite result_bind, result_okToFailAsync; cbn iota beta).
  done.
Qed.

Lemma calls_enrichNFT n :
  calls W (enrichNFT n)
  = let address :=
      as_value (tolerated (result W (getHolderByMint (new_PublicKey (md_mint (metadataOnchain n))))) false) in
    [some_call (GetTokenLargestAccounts (new_PublicKey (md_mint (metadataOnchain n))));
     some_call (DeserializeTokenAccount (mint n) address);
     some_call (DeserializeTokenMint (mint n));
     some_call (AxiosGet (uri (md_data (metadataOnchain n))))]
    ++ calls W (getEditionInfoByMint (mint n)).
Proof.
  unfold enrichNFT.
  repeat (rewrite calls_bind, calls_okToFailAsync, result_okToFailAsync; cbn iota beta).
  rewrite calls_getHolderByMint, calls_deserializeTokenAccount, calls_deserializeTokenMint,
    calls_getExternalMetadata, calls_Ret, app_nil_r.
  done.
Qed.

Lemma calls_enrichNFT_enrichment n : Forall is_enrichment_call (calls W (enrichNFT n)).
Proof.
  rewrite calls_enrichNFT. cbv zeta. apply Forall_app. split.
  - by repeat constructor.
  - apply calls_getEditionInfoByMint_enrichment.
Qed.

Lemma getEditionInfoByMint_keys mnt o key :
  result W (getEditionInfoByMint mnt) = inr o →
  key ∈ ["mint"; "metadataPDA"; "metadataOnchain"] →
  o !! key = None.
Proof.
  rewrite result_getEditionInfoByMint. intros Hr Hkey.
  assert (∀ t a b c d, EditionInfo t a b c d !! key = None) as Hnone.
  { intros. rewrite !elem_of_cons, elem_of_nil in Hkey.
    destruct Hkey as [->|[->|[->|[]]]]; by vm_compute. }
  repeat (first [case_match | case_decide]; simplify_eq/=); apply Hnone.
Qed.

End Enrichment.

(** ** The merge *)

Section Merge.
Context `{MetadataProgram} (W : World).

Lemma enriched_mint n : enriched W n !! "mint" = Some (VPublicKey (mint n)).
Proof.
  unfold enriched, spread2. cbv zeta. rewrite lookup_union.
  destruct (result W (getEditionInfoByMint (mint n))) as [e|o] eqn:Hr; simpl.
  - by vm_compute.
  - rewrite (getEditionInfoByMint_keys W (mint n) o "mint" Hr)
      by (rewrite !elem_of_cons; auto).
    by vm_compute.
Qed.

Lemma enriched_base_keys n key :
  key ∈ ["metadataPDA"; "metadataOnchain"] → enriched W n !! key = None.
Proof.
  intros Hkey. unfold enriched, spread2. cbv zeta. rewrite lookup_union.
  assert (spread (tolerated (result W (getEditionInfoByMint (mint n))) true) !! key = None)
    as ->.
  { destruct (result W (getEditionInfoByMint (mint n))) as [e|o] eqn:Hr; simpl; [done|].
    apply (getEditionInfoByMint_keys W (mint n)); [done|].
    rewrite !elem_of_cons in *. tauto. }
  rewrite !elem_of_cons, elem_of_nil in Hkey.
  destruct Hkey as [->|[->|[]]]; by vm_compute.
Qed.

Lemma INFT_obj_lookup n :
  INFT_obj n !! "mint" = Some (VPublicKey (mint n))
  ∧ INFT_obj n !! "metadataPDA" = Some (VPublicKey (metadataPDA n))
  ∧ INFT_obj n !! "metadataOnchain" = Some (VMetadataData (metadataOnchain n)).
Proof. by vm_compute. Qed.

Lemma merged_base_props metadatas :
  base_props <$> merged W metadatas
  = (λ m, (VPublicKey (new_PublicKey (md_mint (data m))), VPublicKey (pubkey m),
           VMetadataData (data m))) <$> metadatas.
Proof.
  unfold merged, joinArraysOnKey, deserializeMetadataOnchain. cbv zeta.
  rewrite <-!list_fmap_compose. apply list_fmap_ext. intros _ m _. simpl.
  set (n := INFT_of m).
  destruct (find _ _) as [b|] eqn:Hfind; [|by vm_compute].
  apply find_some in Hfind as [Hin Heq].
  apply list_elem_of_In, list_elem_of_fmap in Hin as (n' & -> & _).
  unfold strict_equal in Heq. apply bool_decide_eq_true in Heq.
  unfold base_props, get_prop, spread2 in *. rewrite !lookup_union.
  unfold compose in *.
  rewrite (enriched_base_keys _ "metadataPDA"), (enriched_base_keys _ "metadataOnchain")
    by (rewrite !elem_of_cons; auto).
  rewrite enriched_mint in *.
  destruct (INFT_obj_lookup n) as (-> & -> & ->). simpl in *. by rewrite Heq.
Qed.

End Merge.

(** ** Running [turnMetadatasIntoNFTs] *)

Lemma task_events_call_of i cs ev : ev ∈ task_events i cs → call_of ev ∈ cs.
Proof.
  unfold task_events. rewrite list_elem_of_bind. intros (c & Hev & Hc).
  rewrite !elem_of_cons, elem_of_nil in Hev. by destruct Hev as [->|[->|[]]].
Qed.

Section Orchestration.
Context `{MetadataProgram} (W : World).

Lemma record_tasks_lookup metadatas i t :
  record_tasks metadatas !! i = Some t →
  ∃ m, metadatas !! i = Some m ∧ t = enrichNFT (INFT_of m).
Proof.
  unfold record_tasks, deserializeMetadataOnchain. rewrite <-list_fmap_compose.
  intros (m & -> & Hm)%list_lookup_fmap_Some. by exists m.
Qed.

Lemma record_tasks_results metadatas :
  result W <$> record_tasks metadatas
  = inr <$> (enriched W <$> deserializeMetadataOnchain metadatas).
Proof.
  unfold record_tasks. rewrite <-!list_fmap_compose.
  apply list_fmap_ext. intros _ n _. apply result_enrichNFT.
Qed.

Lemma exec_turnMetadatasIntoNFTs sched metadatas o tr :
  exec W sched (turnMetadatasIntoNFTs metadatas) = (o, tr) →
  (o = Pending ∨ o = Fulfilled (merged W metadatas))
  ∧ (complete W sched (record_tasks metadatas) → o = Fulfilled (merged W metadatas))
  ∧ (∃ evs, tr = initial_issues 0 (record_tasks metadatas) ++ evs)
  ∧ Forall (λ ev, ∃ i, who ev = RecordTask i ∧ i < length metadatas) tr
  ∧ ∀ i t, record_tasks metadatas !! i = Some t →
      of_task i tr `prefix_of` task_events i (calls W t)
      ∧ (o ≠ Pending → of_task i tr = task_events i (calls W t)).
Proof.
  unfold turnMetadatasIntoNFTs. cbv zeta. simpl exec.
  fold (record_tasks metadatas).
  destruct (promise_all W sched (record_tasks metadatas)) as [[o' evs] rest] eqn:Hp.
  pose proof (promise_all_results W _ _ _ _ _ Hp) as Hres.
  pose proof (promise_all_complete W sched (record_tasks metadatas)) as Hcomplete.
  rewrite Hp in Hcomplete. simpl in Hcomplete.
  apply promise_all_events in Hp as (Hinit & Hwho & Htask).
  assert (length (record_tasks metadatas) = length metadatas) as Hlen.
  { unfold record_tasks, deserializeMetadataOnchain. by rewrite !length_fmap. }
  rewrite Hlen in Hwho.
  destruct o' as [bs|e|].
  - rewrite record_tasks_results in Hres. apply (inj (fmap inr)) in Hres as <-.
    intros ?; simplify_eq. rewrite app_nil_r. fold (merged W metadatas).
    split; [by right|]. do 3 (split; [done|]).
    intros i t Ht. destruct (Htask i t Ht) as [Hp He]. split; [done|].
    intros _. by eapply He.
  - rewrite record_tasks_results in Hres.
    apply list_elem_of_fmap in Hres as (? & ? & _). done.
  - intros ?; simplify_eq.
    split; [by left|]. split; [intros Hc; by destruct (Hcomplete Hc)|].
    do 2 (split; [done|]).
    intros i t Ht. destruct (Htask i t Ht) as [Hp He]. by split.
Qed.

(** However the answers are scheduled, a record task has got the answers
    that the schedule brought for it and has issued its next lookup after
    each. *)
Lemma exec_turnMetadatasIntoNFTs_progress sched metadatas :
  ∀ i t, record_tasks metadatas !! i = Some t →
    of_task i (exec W sched (turnMetadatasIntoNFTs metadatas)).2
    = take (S (2 * turns i sched)) (task_events i (calls W t)).
Proof.
  intros i t Hi.
  destruct (exec W sched (turnMetadatasIntoNFTs metadatas)) as [o tr] eqn:He.
  pose proof He as (Ho & _)%exec_turnMetadatasIntoNFTs.
  revert He. unfold turnMetadatasIntoNFTs. cbv zeta. simpl exec.
  fold (record_tasks metadatas).
  destruct (promise_all W sched (record_tasks metadatas)) as [[o' evs] rest] eqn:Hp.
  destruct o' as [bs|e|]; intros ?; simplify_eq; [|by destruct Ho|];
    cbn [snd]; rewrite ?app_nil_r; by eapply promise_all_progress.
Qed.

Lemma exec_turnMetadatasIntoNFTs_events sched metadatas :
  Forall is_enrichment_event (exec W sched (turnMetadatasIntoNFTs metadatas)).2.
Proof.
  destruct (exec W sched _) as [o tr] eqn:He.
  apply exec_turnMetadatasIntoNFTs in He as (_ & _ & _ & Hwho & Htask). simpl.
  apply Forall_forall. intros ev Hev.
  pose proof (proj1 (Forall_forall _ _) Hwho ev Hev) as (i & Hi & Hlt).
  destruct (lookup_lt_is_Some_2 (record_tasks metadatas) i) as [t Ht].
  { unfold record_tasks, deserializeMetadataOnchain. by rewrite !length_fmap. }
  destruct (Htask i t Ht) as [[k Hk] _].
  assert (ev ∈ task_events i (calls W t)) as Hin.
  { rewrite Hk. apply elem_of_app. left. by apply list_elem_of_filter. }
  apply task_events_call_of in Hin.
  apply record_tasks_lookup in Ht as (m & _ & ->).
  unfold is_enrichment_event. rewrite Hi.
  pose proof (calls_enrichNFT_enrichment W) as Hall.
  setoid_rewrite Forall_forall in Hall. by eapply Hall.
Qed.

End Orchestration.

(** ** Running [getNFTs] *)

Lemma issued_app tr1 tr2 : issued (tr1 ++ tr2) = issued tr1 ++ issued tr2.
Proof. apply omap_app. Qed.

Lemma issued_orchestrator_events cs : issued (orchestrator_events cs) = cs.
Proof. induction cs as [|c cs IH]; [done|]. simpl. by rewrite IH. Qed.

Lemma enrichment_events_orchestrator cs : enrichment_events (orchestrator_events cs) = [].
Proof.
  unfold enrichment_events. induction cs as [|c cs IH]; [done|].
  change (orchestrator_events (c :: cs))
    with (Issue Orchestrator c :: Reply Orchestrator c :: orchestrator_events cs).
  by rewrite !filter_cons_False by by intros ?.
Qed.

(** Enrichment events issue neither a locator query nor an emission. *)
Lemma enrichment_issued tr :
  Forall is_enrichment_event tr →
  locator_queries tr = [] ∧ emissions tr = [] ∧ enrichment_events tr = tr.
Proof.
  unfold locator_queries, emissions, enrichment_events.
  induction 1 as [|ev tr Hev _ (IH1 & IH2 & IH3)]; [done|].
  rewrite filter_cons_True, IH3 by done. split; [|split; [|done]].
  - destruct ev as [w c|w c]; simpl; [|done].
    rewrite filter_cons_False; [done|].
    unfold is_enrichment_event, is_enrichment_call in Hev. simpl in Hev.
    destruct w; [done|]. destruct (is_locator_call c); simpl in *; [done|by intros ?].
  - destruct ev as [w c|w c]; simpl; [|done].
    rewrite filter_cons_False; [done|].
    unfold is_enrichment_event, is_enrichment_call in Hev. simpl in Hev.
    destruct w; [done|].
    destruct (is_locator_call c), (is_emit_call c); simpl in *; (done || by intros ?).
Qed.

Section Entry.
Context `{MetadataProgram} (W : World).

Lemma exec_getNFTs_located sched metadatas :
  exec W sched (getNFTs_located metadatas)
  = if decide (length metadatas = 0) then (Fulfilled [], [])
    else match W _ (EE_emit "loading" (loading_found (length metadatas))) with
         | inl e => (Rejected e, orchestrator_events [emit_found metadatas])
         | inr _ =>
           let '(o, tr) := exec W sched (turnMetadatasIntoNFTs metadatas) in
           (o, orchestrator_events [emit_found metadatas] ++ tr)
         end.
Proof.
  unfold getNFTs_located. case_decide; [done|].
  cbn [exec]. rewrite run_fst_snd, result_await, calls_await.
  by destruct (W _ _).
Qed.

Lemma exec_getNFTs sched params :
  exec W sched (getNFTs params)
  = match result W (getNFTs_metadatas params) with
    | inl e => (Rejected e, orchestrator_events (calls W (getNFTs_metadatas params)))
    | inr metadatas =>
      let '(o, tr) := exec W sched (getNFTs_located metadatas) in
      (o, orchestrator_events (calls W (getNFTs_metadatas params)) ++ tr)
    end.
Proof. unfold getNFTs. cbn [exec]. by rewrite run_fst_snd. Qed.

(** The chain that assigns [metadatas] makes at most one call, a locator
    query. *)
Lemma calls_getNFTs_metadatas params :
  calls W (getNFTs_metadatas params)
  = match params with
    | {| sel_owner := Some owner |} => [some_call (FindByOwnerV2 owner)]
    | {| sel_creators := Some (c :: cs) |} => [some_call (FindMany (by_creators (c :: cs)))]
    | {| sel_mint := Some mint |} => [some_call (FindMany (by_mint mint))]
    | {| sel_updateAuthority := Some updateAuthority |} =>
        [some_call (FindMany (by_updateAuthority updateAuthority))]
    | _ => []
    end.
Proof.
  destruct params as [[owner|] [[|c cs]|] [mint|] [updateAuthority|]]; simpl;
    try done;
    unfold getMetadataByOwner, getMetadataByCreators, getMetadataByMint,
      getMetadataByUpdateAuthority;
    rewrite calls_bind, calls_await, result_await; by destruct (W _ _).
Qed.

Lemma result_getNFTs_metadatas params :
  result W (getNFTs_metadatas params)
  = match params with
    | {| sel_owner := Some owner |} => W _ (FindByOwnerV2 owner)
    | {| sel_creators := Some (c :: cs) |} => W _ (FindMany (by_creators (c :: cs)))
    | {| sel_mint := Some mint |} => W _ (FindMany (by_mint mint))
    | {| sel_updateAuthority := Some updateAuthority |} =>
        W _ (FindMany (by_updateAuthority updateAuthority))
    | _ => inl InvalidSelector
    end.
Proof.
  destruct params as [[owner|] [[|c cs]|] [mint|] [updateAuthority|]]; simpl;
    try done;
    unfold getMetadataByOwner, getMetadataByCreators, getMetadataByMint,
      getMetadataByUpdateAuthority;
    rewrite result_bind, result_await; by destruct (W _ _).
Qed.

Lemma calls_getNFTs_metadatas_locator params :
  filter is_locator_call (calls W (getNFTs_metadatas params))
  = calls W (getNFTs_metadatas params)
  ∧ filter is_emit_call (calls W (getNFTs_metadatas params)) = [].
Proof.
  rewrite calls_getNFTs_metadatas.
  by destruct params as [[owner|] [[|c cs]|] [mint|] [updateAuthority|]].
Qed.

(** The trace of [getNFTs]: the events of the locator phase, then, when
    records were found, the emission, then the enrichment. *)
Lemma getNFTs_trace sched params :
  ∃ after,
    (exec W sched (getNFTs params)).2
    = orchestrator_events (calls W (getNFTs_metadatas params)) ++ after
    ∧ match result W (getNFTs_metadatas params) with
      | inl _ => after = []
      | inr metadatas =>
        if decide (length metadatas = 0) then after = []
        else ∃ evs, after = orchestrator_events [emit_found metadatas] ++ evs
                    ∧ Forall is_enrichment_event evs
      end.
Proof.
  rewrite exec_getNFTs.
  destruct (result W (getNFTs_metadatas params)) as [e|metadatas].
  { exists []. by rewrite app_nil_r. }
  rewrite exec_getNFTs_located. case_decide.
  { exists []. by rewrite app_nil_r. }
  destruct (W _ _) as [e|b].
  { eexists. split; [done|]. exists []. by rewrite app_nil_r. }
  pose proof (exec_turnMetadatasIntoNFTs_events W sched metadatas) as Hevs.
  destruct (exec W sched (turnMetadatasIntoNFTs metadatas)) as [o tr].
  eexists. split; [done|]. by exists tr.
Qed.

Lemma getNFTs_locator_queries sched params :
  locator_queries (exec W sched (getNFTs params)).2 = calls W (getNFTs_metadatas params).
Proof.
  destruct (getNFTs_trace sched params) as (after & -> & Hafter).
  unfold locator_queries. rewrite issued_app, issued_orchestrator_events, filter_app.
  rewrite (proj1 (calls_getNFTs_metadatas_locator params)).
  fold (locator_queries after).
  assert (locator_queries after = []) as ->; [|by rewrite app_nil_r].
  destruct (result W _) as [e|metadatas]; [by subst|].
  case_decide; [by subst|]. destruct Hafter as (evs & -> & Hevs).
  apply enrichment_issued in Hevs as (Hevs & _).
  unfold locator_queries in *. by rewrite issued_app, filter_app, Hevs.
Qed.

End Entry.

(** * Properties of the specification *)

(** ** The selector *)

(** C3: calling [getNFTs] with no selector at all raises the
    [InvalidSelector] failure, and the trace is empty: no locator query was
    issued, nothing was emitted to the progress sink, and no enrichment
    lookup was made. *)
Theorem getNFTs_no_selector `{MetadataProgram} (W : World) (sched : list nat) :
  exec W sched (getNFTs (select None None None None)) = (Rejected InvalidSelector, []).
Proof. by rewrite exec_getNFTs, result_getNFTs_metadatas, calls_getNFTs_metadatas. Qed.

(** C10: an empty [creators] array counts as no selector.  Alone, it makes
    [getNFTs] raise [InvalidSelector] (with nothing issued) rather than
    return an empty collection; next to a [mint] or an [updateAuthority]
    selector, that lower-priority selector is the one whose query is
    issued. *)
Theorem getNFTs_empty_creators `{MetadataProgram} (W : World) (sched : list nat) :
  exec W sched (getNFTs (select None (Some []) None None)) = (Rejected InvalidSelector, [])
  ∧ (∀ mint updateAuthority,
       locator_queries (exec W sched (getNFTs (select None (Some []) (Some mint) updateAuthority))).2
       = [some_call (FindMany (by_mint mint))])
  ∧ (∀ updateAuthority,
       locator_queries (exec W sched (getNFTs (select None (Some []) None (Some updateAuthority)))).2
       = [some_call (FindMany (by_updateAuthority updateAuthority))]).
Proof.
  split; [|split].
  - by rewrite exec_getNFTs, result_getNFTs_metadatas, calls_getNFTs_metadatas.
  - intros mint updateAuthority. by rewrite getNFTs_locator_queries, calls_getNFTs_metadatas.
  - intros updateAuthority. by rewrite getNFTs_locator_queries, calls_getNFTs_metadatas.
Qed.

(** C2: whatever selectors are set together, [getNFTs] issues exactly one
    locator query, that of the first selector that is set in the order
    owner, creators (a non-empty array), mint, updateAuthority. *)
Theorem getNFTs_selector_priority `{MetadataProgram} (W : World) (sched : list nat)
    (params : INFTParams) :
  let queries := locator_queries (exec W sched (getNFTs params)).2 in
  (∀ owner, sel_owner params = Some owner →
     queries = [some_call (FindByOwnerV2 owner)])
  ∧ (∀ creators, sel_owner params = None →
       sel_creators params = Some creators → creators ≠ [] →
       queries = [some_call (FindMany (by_creators creators))])
  ∧ (∀ mint, sel_owner params = None →
       sel_creators params = None ∨ sel_creators params = Some [] →
       sel_mint params = Some mint →
       queries = [some_call (FindMany (by_mint mint))])
  ∧ (∀ updateAuthority, sel_owner params = None →
       sel_creators params = None ∨ sel_creators params = Some [] →
       sel_mint params = None →
       sel_updateAuthority params = Some updateAuthority →
       queries = [some_call (FindMany (by_updateAuthority updateAuthority))]).
Proof.
  cbv zeta. rewrite getNFTs_locator_queries, calls_getNFTs_metadatas.
  destruct params as [owner creators mint updateAuthority]. simpl.
  split_and!.
  - by intros ? ->.
  - intros cs -> -> Hne. by destruct cs.
  - by intros ? -> [->| ->] ->.
  - by intros ? -> [->| ->] -> ->.
Qed.

Lemma getNFTs_selector_priority_witness :
  locator_queries
    (exec (world_of ledger) [0; 1; 0; 1]
       (getNFTs (H := metaplex) (select (Some "me") (Some ["creator"]) (Some "A") (Some "authority")))).2
  = [some_call (FindByOwnerV2 "me")]
  ∧ locator_queries
      (exec (world_of ledger) []
         (getNFTs (H := metaplex) (select None (Some ["creator"]) (Some "A") (Some "authority")))).2
    = [some_call (FindMany (by_creators ["creator"]))]
  ∧ locator_queries
      (exec (world_of ledger) []
         (getNFTs (H := metaplex) (select None (Some []) (Some "A") (Some "authority")))).2
    = [some_call (FindMany (by_mint "A"))]
  ∧ locator_queries
      (exec (world_of ledger) []
         (getNFTs (H := metaplex) (select None None None (Some "authority")))).2
    = [some_call (FindMany (by_updateAuthority "authority"))].
Proof.
  split_and!.
  - by apply (getNFTs_selector_priority (H := metaplex)).
  - apply (getNFTs_selector_priority (H := metaplex)); done.
  - apply (getNFTs_selector_priority (H := metaplex)); auto.
  - apply (getNFTs_selector_priority (H := metaplex)); auto.
Defined.

(** ** The progress notification *)

(** C4: let the locator phase of [getNFTs] resolve with [metadatas].  The
    events of that phase contain no emission and no enrichment event.  When
    [metadatas] is empty, [getNFTs] returns the empty collection and the
    trace ends there: nothing is emitted and no enrichment is done.  When it
    is not, the trace continues with exactly one emission, which carries the
    number of records found, and everything after it is enrichment. *)
Theorem getNFTs_progress_notification `{MetadataProgram} (W : World) (sched : list nat)
    (params : INFTParams) (metadatas : list Metadata) :
  result W (getNFTs_metadatas params) = inr metadatas →
  let located := orchestrator_events (calls W (getNFTs_metadatas params)) in
  let emission := emit_found metadatas in
  (emissions located = [] ∧ enrichment_events located = [])
  ∧ (metadatas = [] → exec W sched (getNFTs params) = (Fulfilled [], located))
  ∧ (metadatas ≠ [] →
       ∃ evs, (exec W sched (getNFTs params)).2
              = located ++ [Issue Orchestrator emission; Reply Orchestrator emission] ++ evs
              ∧ Forall is_enrichment_event evs
              ∧ emissions (exec W sched (getNFTs params)).2 = [emission]).
Proof.
  intros Hres located emission. subst located emission.
  assert (emissions (orchestrator_events (calls W (getNFTs_metadatas params))) = [])
    as Hnone.
  { unfold emissions. rewrite issued_orchestrator_events.
    apply calls_getNFTs_metadatas_locator. }
  split; [split; [done|apply enrichment_events_orchestrator]|]. split.
  - intros ->. rewrite exec_getNFTs, Hres, exec_getNFTs_located. simpl.
    by rewrite app_nil_r.
  - intros Hne. destruct (getNFTs_trace W sched params) as (after & Htr & Hafter).
    rewrite Hres in Hafter. rewrite decide_False in Hafter by by destruct metadatas.
    destruct Hafter as (evs & -> & Hevs). exists evs. split; [done|]. split; [done|].
    rewrite Htr. unfold emissions in *.
    rewrite issued_app, filter_app, Hnone, issued_app, filter_app.
    apply enrichment_issued in Hevs as (_ & Hevs & _). unfold emissions in Hevs.
    by rewrite Hevs.
Qed.

Lemma getNFTs_progress_notification_witness :
  (exec (world_of ledger) [] (getNFTs (H := metaplex) (select None None None (Some "authority")))
   = (Fulfilled [],
      [Issue Orchestrator (some_call (FindMany (by_updateAuthority "authority")));
       Reply Orchestrator (some_call (FindMany (by_updateAuthority "authority")))]))
  ∧ emissions
      (exec (world_of ledger) [0; 0; 0; 0; 0; 0]
         (getNFTs (H := metaplex) (select None None (Some "A") None))).2
    = [emit_found [nft "A"]].
Proof.
  split.
  - by apply (getNFTs_progress_notification (H := metaplex) (world_of ledger) []
                (select None None None (Some "authority")) []).
  - destruct (getNFTs_progress_notification (H := metaplex) (world_of ledger)
                [0; 0; 0; 0; 0; 0] (select None None (Some "A") None) [nft "A"] eq_refl)
      as (_ & _ & Hfound).
    destruct Hfound as (evs & _ & _ & Hone); [done|]. exact Hone.
Defined.

(** ** The holder lookup *)

(** C8: the holder lookup makes one call, for the ranked accounts of the
    mint.  When the list has a first entry it returns the address of that
    entry, whatever its amount and whatever follows it; when the list is
    empty it returns [undefined], and does not throw. *)
Theorem getHolderByMint_first (W : World) (mint : PublicKey) :
  (∀ first rest,
     W _ (GetTokenLargestAccounts mint) = inr (Some (first :: rest)) →
     run W (getHolderByMint mint)
     = (inr (VPublicKey (address first)), [some_call (GetTokenLargestAccounts mint)]))
  ∧ (W _ (GetTokenLargestAccounts mint) = inr (Some []) →
     run W (getHolderByMint mint)
     = (inr VUndefined, [some_call (GetTokenLargestAccounts mint)])).
Proof.
  rewrite run_fst_snd, result_getHolderByMint, calls_getHolderByMint.
  split; [intros first rest Hw|intros Hw]; by rewrite Hw.
Qed.

Lemma getHolderByMint_first_witness :
  run (world_of ledger) (getHolderByMint "A")
  = (inr (VPublicKey "holder-of-A"), [some_call (GetTokenLargestAccounts "A")]).
Proof.
  by apply (proj1 (getHolderByMint_first (world_of ledger) "A")
              {| address := "holder-of-A"; amount := 1 |}
              [ {| address := "somebody-else"; amount := 0 |} ]).
Defined.

(** ** The merge keeps the base records *)

Lemma find_unique {A : Type} (P : A → bool) (l : list A) (i : nat) (x : A) :
  l !! i = Some x → P x = true →
  (∀ j y, l !! j = Some y → P y = true → j = i) →
  find P l = Some x.
Proof.
  revert i. induction l as [|a l IH]; intros [|i] Hi Hx Hu; simplify_eq/=.
  - by rewrite Hx.
  - destruct (P a) eqn:Ha.
    + by specialize (Hu 0 a eq_refl Ha).
    + apply (IH i); [done..|]. intros j y Hj Hy.
      specialize (Hu (S j) y Hj Hy). lia.
Qed.


Section MergeAbsent.
Context `{MetadataProgram} (W : World).


Lemma merged_lookup metadatas i m :
  metadatas !! i = Some m →
  (∀ j m', metadatas !! j = Some m' → md_mint (data m') = md_mint (data m) → j = i) →
  merged W metadatas !! i
  = Some (spread2 (INFT_obj (INFT_of m)) (enriched W (INFT_of m))).
Proof.
  intros Hi Hunique. unfold merged, joinArraysOnKey, deserializeMetadataOnchain. cbv zeta.
  fold INFT_of. rewrite <-!list_fmap_compose, list_lookup_fmap, Hi. simpl. f_equal.
  rewrite (find_unique _ _ i (enriched W (INFT_of m))); [done|..].
  - by rewrite list_lookup_fmap, Hi.
  - unfold strict_equal, get_prop. rewrite enriched_mint.
    destruct (INFT_obj_lookup (INFT_of m)) as (-> & _). by apply bool_decide_eq_true.
  - intros j y Hj Heq. apply list_lookup_fmap_Some in Hj as (m' & -> & Hj).
    apply (Hunique j m' Hj).
    unfold strict_equal, get_prop, compose in Heq. apply bool_decide_eq_true in Heq.
    rewrite enriched_mint in Heq.
    destruct (INFT_obj_lookup (INFT_of m)) as (Hm & _). rewrite Hm in Heq.
    simpl in Heq. by injection Heq.
Qed.


End MergeAbsent.




(** ** Edition resolution *)

Section Classification.
Context `{MetadataProgram}.

Lemma MetadataKey_ne :
  MetadataKey_EditionV1 ≠ MetadataKey_MasterEditionV1
  ∧ MetadataKey_EditionV1 ≠ MetadataKey_MasterEditionV2
  ∧ MetadataKey_MasterEditionV1 ≠ MetadataKey_MasterEditionV2.
Proof.
  pose proof MetadataKey_distinct as Hd.
  rewrite !NoDup_cons, !elem_of_cons, elem_of_nil in Hd. intuition.
Qed.

Lemma getEnumKeyByEnumValue_cases key :
  (key = Some MetadataKey_EditionV1 ∧ getEnumKeyByEnumValue key = PrintV1)
  ∨ (key = Some MetadataKey_MasterEditionV1 ∧ getEnumKeyByEnumValue key = MasterV1)
  ∨ (key = Some MetadataKey_MasterEditionV2 ∧ getEnumKeyByEnumValue key = MasterV2)
  ∨ ((key ∉ [Some MetadataKey_EditionV1; Some MetadataKey_MasterEditionV1;
             Some MetadataKey_MasterEditionV2])
     ∧ getEnumKeyByEnumValue key = Unknown).
Proof.
  unfold getEnumKeyByEnumValue. repeat case_decide; [by left|right; by left|right; right; by left|].
  do 3 right. split; [|done]. rewrite !elem_of_cons, elem_of_nil. intuition.
Qed.


End Classification.




(** C6: the code does not do what the claim says.  For a print whose data
    decodes, when the parent lookup fails the adapter resolves with
    [undefined], and destructuring it raises a [TypeError]: the resolution
    raises, after one parent fetch, and returns no classification. *)
Theorem getEditionInfoByMint_parent_failure_raises `{MetadataProgram} (W : World)
    (mint pda : PublicKey) (info : option AccountInfo) (editionData : EditionData)
    (e : Error) :
  W _ (Edition_getPDA mint) = inr pda →
  W _ (Account_getInfo pda) = inr info →
  leading_tag info = Some MetadataKey_EditionV1 →
  Edition_data pda info = inr editionData →
  result W (getParentEdition editionData) = inl e →
  run W (getEditionInfoByMint mint)
  = (inl (TypeError "Cannot destructure property 'masterEditionPDA' of undefined"),
     [some_call (Edition_getPDA mint); some_call (Account_getInfo pda);
      some_call (Account_getInfo (new_PublicKey (parent editionData)))]).
Proof.
  intros Hpda Hinfo Htag Hed Hparent.
  rewrite run_fst_snd, result_getEditionInfoByMint, calls_getEditionInfoByMint.
  rewrite Hpda, Hinfo. cbv zeta. rewrite Htag, Hed, Hparent.
  by rewrite !decide_True.
Qed.

Lemma getEditionInfoByMint_parent_failure_raises_witness :
  run (world_of ledger) (getEditionInfoByMint (H := metaplex) "C")
  = (inl (TypeError "Cannot destructure property 'masterEditionPDA' of undefined"),
     [some_call (Edition_getPDA "C"); some_call (Account_getInfo "edition-of-C");
      some_call (Account_getInfo "parent-of-edition-of-C")]).
Proof.
  by apply (getEditionInfoByMint_parent_failure_raises (H := metaplex) (world_of ledger)
              "C" "edition-of-C"
              (Some {| info_owner := "metadata-program"; info_data := [1; 3]%Z |})
              {| parent := "parent-of-edition-of-C"; edition := 3 |}
              (Err "account not found")).
Defined.

(** What the raise of C6 does to the record: the adapter around the whole
    resolution turns it into the empty object, so the print of mint C gets
    no edition property at all, not even its classification. *)
Example enriched_print_parent_unreachable :
  Forall (λ key, get_prop (enriched (H := metaplex) (world_of ledger) (INFT_of (nft "C"))) key
                 = VUndefined)
    ["editionType"; "editionPDA"; "editionData"; "masterEditionPDA"; "masterEditionData"].
Proof. repeat constructor; by vm_compute. Qed.

(** C7, as the code has it.  In every object that the resolution returns:
    [editionPDA] and [editionData] are present only for [PrintV1], and are
    then the address of the primary account and its decoded print data;
    [masterEditionPDA] and [masterEditionData] are present only for
    [PrintV1], [MasterV1] and [MasterV2], and whenever either is present
    both are: for a master they are the address of the primary account
    itself and its decoded data, for a print the [parent] address recorded
    in the [editionData] of the same object and the decoded data of the
    account fetched at that address; and for [Unknown] the four properties
    are absent. *)
Theorem getEditionInfoByMint_field_presence `{MetadataProgram} (W : World)
    (mint : PublicKey) (o : Obj) :
  result W (getEditionInfoByMint mint) = inr o →
  let present key := get_prop o key ≠ VUndefined in
  let classified t := get_prop o "editionType" = VEditionType t in
  let primary pda info :=
    W _ (Edition_getPDA mint) = inr pda ∧ W _ (Account_getInfo pda) = inr info in
  let master_at address info masterEditionData :=
    W _ (Account_getInfo address) = inr info
    ∧ MasterEdition_data address info = inr masterEditionData
    ∧ get_prop o "masterEditionPDA" = VPublicKey address
    ∧ get_prop o "masterEditionData" = VMasterEditionData masterEditionData in
  (present "editionPDA" ∨ present "editionData" →
     classified PrintV1
     ∧ ∃ pda info editionData,
         primary pda info
         ∧ Edition_data pda info = inr editionData
         ∧ get_prop o "editionPDA" = VPublicKey pda
         ∧ get_prop o "editionData" = VEditionData editionData)
  ∧ (present "masterEditionPDA" ∨ present "masterEditionData" →
       (∃ pda info masterEditionData,
          (classified MasterV1 ∨ classified MasterV2)
          ∧ primary pda info
          ∧ master_at pda info masterEditionData)
       ∨ (∃ editionData masterInfo masterEditionData,
            classified PrintV1
            ∧ get_prop o "editionData" = VEditionData editionData
            ∧ master_at (new_PublicKey (parent editionData)) masterInfo masterEditionData))
  ∧ (classified Unknown →
       Forall (λ key, get_prop o key = VUndefined)
         ["editionPDA"; "editionData"; "masterEditionPDA"; "masterEditionData"]).
Proof.
  rewrite result_getEditionInfoByMint. intros Hres present classified primary master_at.
  subst present classified primary master_at. cbv beta.
  destruct MetadataKey_ne as (Hne1 & Hne2 & Hne3).
  destruct (W _ (Edition_getPDA mint)) as [?|pda] eqn:Hpda; [done|].
  destruct (W _ (Account_getInfo pda)) as [?|info] eqn:Hinfo; [done|].
  cbv zeta in Hres.
  destruct (getEnumKeyByEnumValue_cases (leading_tag info))
    as [[Hk Ht]|[[Hk Ht]|[[Hk Ht]|[Hk Ht]]]]; rewrite Ht in Hres; clear Ht.
  - (* a print *)
    rewrite decide_True in Hres by done.
    destruct (Edition_data pda info) as [?|editionData] eqn:Hedition; [done|].
    rewrite result_getParentEdition in Hres. cbv zeta in Hres.
    destruct (W _ (Account_getInfo (new_PublicKey (parent editionData))))
      as [?|masterInfo] eqn:Hmaster; [done|].
    destruct (MasterEdition_data _ masterInfo) as [?|masterEditionData] eqn:Hdata; [done|].
    simpl in Hres. injection Hres as <-.
    match goal with |- context [get_prop (EditionInfo ?t ?a ?b ?c ?d) _] =>
      destruct (EditionInfo_props t a b c d) as (-> & -> & -> & -> & ->) end.
    split_and!; [|intros _; right|done].
    + intros _. split; [done|]. by exists pda, info, editionData.
    + by exists editionData, masterInfo, masterEditionData.
  - (* a master edition, first version *)
    rewrite decide_False, decide_True in Hres by (try left; congruence).
    destruct (MasterEdition_data pda info) as [?|masterEditionData] eqn:Hdata; [done|].
    injection Hres as <-.
    match goal with |- context [get_prop (EditionInfo ?t ?a ?b ?c ?d) _] =>
      destruct (EditionInfo_props t a b c d) as (-> & -> & -> & -> & ->) end.
    split_and!; [by intros [?|?]|intros _; left|done].
    exists pda, info, masterEditionData. split; [by left|done].
  - (* a master edition, second version *)
    rewrite decide_False, decide_True in Hres by (try right; congruence).
    destruct (MasterEdition_data pda info) as [?|masterEditionData] eqn:Hdata; [done|].
    injection Hres as <-.
    match goal with |- context [get_prop (EditionInfo ?t ?a ?b ?c ?d) _] =>
      destruct (EditionInfo_props t a b c d) as (-> & -> & -> & -> & ->) end.
    split_and!; [by intros [?|?]|intros _; left|done].
    exists pda, info, masterEditionData. split; [by right|done].
  - (* anything else *)
    rewrite !elem_of_cons, elem_of_nil in Hk.
    rewrite !decide_False in Hres by intuition.
    injection Hres as <-.
    match goal with |- context [get_prop (EditionInfo ?t ?a ?b ?c ?d) _] =>
      destruct (EditionInfo_props t a b c d) as (-> & -> & -> & -> & ->) end.
    split_and!; [by intros [?|?]|by intros [?|?]|by repeat constructor].
Qed.

(** Mint B, a print: its master properties are those of the account at the
    parent address that its own edition data records. *)
Lemma getEditionInfoByMint_field_presence_witness :
  let o := EditionInfo PrintV1 (VPublicKey "edition-of-B")
             (VEditionData {| parent := "parent-of-edition-of-B"; edition := 7 |})
             (VPublicKey "parent-of-edition-of-B")
             (VMasterEditionData {| supply := 10; maxSupply := None |}) in
  result (world_of ledger) (getEditionInfoByMint (H := metaplex) "B") = inr o
  ∧ ∃ editionData masterInfo masterEditionData,
      get_prop o "editionType" = VEditionType PrintV1
      ∧ get_prop o "editionData" = VEditionData editionData
      ∧ world_of ledger _ (Account_getInfo (new_PublicKey (parent editionData)))
        = inr masterInfo
      ∧ MasterEdition_data (MetadataProgram := metaplex)
          (new_PublicKey (parent editionData)) masterInfo = inr masterEditionData
      ∧ get_prop o "masterEditionPDA" = VPublicKey (new_PublicKey (parent editionData))
      ∧ get_prop o "masterEditionData" = VMasterEditionData masterEditionData.
Proof.
  intros o.
  assert (result (world_of ledger) (getEditionInfoByMint (H := metaplex) "B") = inr o) as Hres.
  { vm_compute. reflexivity. }
  split; [done|].
  destruct (getEditionInfoByMint_field_presence (H := metaplex) (world_of ledger) "B" o Hres)
    as (_ & Hmaster & _).
  destruct (EditionInfo_props PrintV1 (VPublicKey "edition-of-B")
              (VEditionData {| parent := "parent-of-edition-of-B"; edition := 7 |})
              (VPublicKey "parent-of-edition-of-B")
              (VMasterEditionData {| supply := 10; maxSupply := None |}))
    as (Htype & _ & _ & Hpda & _).
  fold o in Htype, Hpda.
  destruct Hmaster as [(pda & info & med & Hclass & _)|Hprint].
  - left. by rewrite Hpda.
  - rewrite Htype in Hclass. by destruct Hclass.
  - exact Hprint.
Defined.

(** C7 as stated fails for a master edition: mint A is classified
    [MasterV2], not [PrintV1], and its [masterEditionPDA] is present (it is
    the address of the primary account itself). *)
Lemma getEditionInfoByMint_master_has_masterEditionPDA :
  ∃ o, result (world_of ledger) (getEditionInfoByMint (H := metaplex) "A") = inr o
       ∧ get_prop o "editionType" = VEditionType MasterV2
       ∧ get_prop o "masterEditionPDA" = VPublicKey "edition-of-A"
       ∧ get_prop o "masterEditionPDA" ≠ VUndefined
       ∧ get_prop o "editionType" ≠ VEditionType PrintV1.
Proof.
  exists (EditionInfo MasterV2 VUndefined VUndefined (VPublicKey "edition-of-A")
            (VMasterEditionData {| supply := 1; maxSupply := None |})).
  split; [vm_compute; reflexivity|].
  destruct (EditionInfo_props MasterV2 VUndefined VUndefined (VPublicKey "edition-of-A")
              (VMasterEditionData {| supply := 1; maxSupply := None |}))
    as (-> & _ & _ & -> & _).
  by split_and!.
Qed.

(** ** The order of the lookups *)

Lemma initial_issues_record_tasks `{MetadataProgram} (n : nat) (metadatas : list Metadata) :
  initial_issues n (record_tasks metadatas)
  = imap (λ i m, Issue (RecordTask (n + i))
                   (some_call (GetTokenLargestAccounts (new_PublicKey (md_mint (data m))))))
      metadatas.
Proof.
  revert n. induction metadatas as [|m metadatas IH]; intros n; [done|].
  rewrite imap_cons. unfold record_tasks, deserializeMetadataOnchain in *.
  rewrite !fmap_cons. cbn [initial_issues]. rewrite IH, Nat.add_0_r.
  change (first_issue n (enrichNFT (INFT_of m)))
    with [Issue (RecordTask n)
            (some_call (GetTokenLargestAccounts (new_PublicKey (md_mint (data m)))))].
  simpl. f_equal. apply imap_ext. intros i m' _. simpl. by rewrite Nat.add_succ_r.
Qed.

(** C9, as the code has it.  Creating the record tasks issues the holder
    lookup of every record, in the order of the records, before any answer
    is awaited.  From then on no record waits for another: under every
    schedule a record has got the answers that the schedule brought for it,
    and has issued its next lookup after each, however far the other records
    are; its events are the first [1 + 2 * k] of its own sequence, [k] being
    the number of its answers.  So a record can make all its lookups while
    an earlier record still waits for its first answer.  The calls of a
    record task are its [lookups], and within one record they wait on each
    other: the events of a record are, in order, the beginning of "issue a
    lookup, get its answer" repeated over the lookups of the record, so that
    a lookup is issued only after the previous one was answered.  The merge
    happens only once every task has made all its lookups, and the promise
    never rejects. *)
Theorem turnMetadatasIntoNFTs_schedule `{MetadataProgram} (W : World) (sched : list nat)
    (metadatas : list Metadata) :
  let outcome := (exec W sched (turnMetadatasIntoNFTs metadatas)).1 in
  let trace := (exec W sched (turnMetadatasIntoNFTs metadatas)).2 in
  (∃ evs,
     trace
     = imap (λ i m, Issue (RecordTask i)
                      (some_call (GetTokenLargestAccounts (new_PublicKey (md_mint (data m))))))
         metadatas
       ++ evs)
  ∧ (∀ i m, metadatas !! i = Some m →
       of_task i trace = take (1 + 2 * turns i sched) (task_events i (lookups W m)))
  ∧ (∀ m, calls W (enrichNFT (INFT_of m)) = lookups W m)
  ∧ (∀ i m, metadatas !! i = Some m →
       of_task i trace `prefix_of` task_events i (lookups W m))
  ∧ (∀ out, outcome = Fulfilled out →
       ∀ i m, metadatas !! i = Some m → of_task i trace = task_events i (lookups W m))
  ∧ (∀ e, outcome ≠ Rejected e).
Proof.
  cbv zeta.
  pose proof (exec_turnMetadatasIntoNFTs_progress W sched metadatas) as Hprogress.
  destruct (exec W sched _) as [o tr] eqn:He.
  apply exec_turnMetadatasIntoNFTs in He as (Ho & _ & Hinit & _ & Htask).
  cbn [fst snd] in *.
  assert (∀ i m, metadatas !! i = Some m →
            record_tasks metadatas !! i = Some (enrichNFT (INFT_of m))
            ∧ calls W (enrichNFT (INFT_of m)) = lookups W m) as Hlookup.
  { intros i m Hi. split; [|apply calls_enrichNFT].
    unfold record_tasks, deserializeMetadataOnchain.
    by rewrite <-list_fmap_compose, list_lookup_fmap, Hi. }
  split_and!.
  - by rewrite (initial_issues_record_tasks 0) in Hinit.
  - intros i m Hi. destruct (Hlookup i m Hi) as [Ht <-]. by apply Hprogress.
  - intros m. apply calls_enrichNFT.
  - intros i m Hi. destruct (Hlookup i m Hi) as [Ht <-]. by apply Htask.
  - intros out -> i m Hi. destruct (Hlookup i m Hi) as [Ht <-]. by apply Htask.
  - intros e ->. by destruct Ho.
Qed.

(** Records A and B, and only the answers for B arrive: B makes all its
    lookups, the parent fetch of the edition resolution included, while A
    still waits for the answer to its first. *)
Lemma turnMetadatasIntoNFTs_schedule_witness :
  let trace := (exec (world_of ledger) [1; 1; 1; 1; 1; 1; 1]
                  (turnMetadatasIntoNFTs (H := metaplex) [nft "A"; nft "B"])).2 in
  of_task 0 trace = [Issue (RecordTask 0) (some_call (GetTokenLargestAccounts "A"))]
  ∧ of_task 1 trace = task_events 1 (lookups (H := metaplex) (world_of ledger) (nft "B"))
  ∧ length (lookups (H := metaplex) (world_of ledger) (nft "B")) = 7.
Proof.
  intros trace. subst trace.
  destruct (turnMetadatasIntoNFTs_schedule (H := metaplex) (world_of ledger)
              [1; 1; 1; 1; 1; 1; 1] [nft "A"; nft "B"]) as (_ & Hprogress & _).
  rewrite (Hprogress 0 (nft "A") eq_refl), (Hprogress 1 (nft "B") eq_refl).
  split_and!; vm_compute; reflexivity.
Defined.

(** C9 as stated fails within one record.  Mint E alone, every answer
    delivered: the task issues its holder lookup and nothing else until the
    answer has come (one lookup was issued before the first answer, not
    five); it then issues the token account lookup, with the holder that was
    returned, and so on, one lookup at a time. *)
Lemma enrichNFT_lookups_wait_on_each_other :
  issued_before_first_answer
    (of_task 0 (exec (world_of ledger) [0; 0; 0; 0; 0; 0]
                  (turnMetadatasIntoNFTs (H := metaplex) [nft "E"])).2) = 1
  ∧ exec (world_of ledger) [] (turnMetadatasIntoNFTs (H := metaplex) [nft "E"])
    = (Pending, [Issue (RecordTask 0) (some_call (GetTokenLargestAccounts "E"))])
  ∧ exec (world_of ledger) [0; 0; 0; 0; 0; 0] (turnMetadatasIntoNFTs (H := metaplex) [nft "E"])
    = (Fulfilled (merged (H := metaplex) (world_of ledger) [nft "E"]),
       [Issue (RecordTask 0) (some_call (GetTokenLargestAccounts "E"));
        Reply (RecordTask 0) (some_call (GetTokenLargestAccounts "E"));
        Issue (RecordTask 0)
          (some_call (DeserializeTokenAccount "E" (VPublicKey "holder-of-E")));
        Reply (RecordTask 0)
          (some_call (DeserializeTokenAccount "E" (VPublicKey "holder-of-E")));
        Issue (RecordTask 0) (some_call (DeserializeTokenMint "E"));
        Reply (RecordTask 0) (some_call (DeserializeTokenMint "E"));
        Issue (RecordTask 0) (some_call (AxiosGet "https://x/E.json"));
        Reply (RecordTask 0) (some_call (AxiosGet "https://x/E.json"));
        Issue (RecordTask 0) (some_call (Edition_getPDA "E"));
        Reply (RecordTask 0) (some_call (Edition_getPDA "E"));
        Issue (RecordTask 0) (some_call (Account_getInfo "edition-of-E"));
        Reply (RecordTask 0) (some_call (Account_getInfo "edition-of-E"))]).
Proof. split_and!; vm_compute; reflexivity. Qed.

(** * Further properties of the code *)

(** ** The entry point, end to end *)

(** X1: a failure of the locator is not caught.  When the chain that assigns
    [metadatas] fails, [getNFTs] is rejected with that same error; the
    trace holds only what that chain issued (at most one call): nothing is
    emitted and no enrichment lookup is made. *)
Theorem getNFTs_locator_failure `{MetadataProgram} (W : World) (sched : list nat)
    (params : INFTParams) (e : Error) :
  result W (getNFTs_metadatas params) = inl e →
  exec W sched (getNFTs params)
  = (Rejected e, orchestrator_events (calls W (getNFTs_metadatas params)))
  ∧ emissions (exec W sched (getNFTs params)).2 = []
  ∧ enrichment_events (exec W sched (getNFTs params)).2 = []
  ∧ length (issued (exec W sched (getNFTs params)).2) ≤ 1.
Proof.
  intros Hres. rewrite exec_getNFTs, Hres. simpl. split; [done|].
  unfold emissions. rewrite issued_orchestrator_events, enrichment_events_orchestrator.
  split; [apply calls_getNFTs_metadatas_locator|]. split; [done|].
  rewrite calls_getNFTs_metadatas.
  destruct params as [[owner|] [[|c cs]|] [mint|] [updateAuthority|]]; simpl; lia.
Qed.

Lemma getNFTs_locator_failure_witness :
  exec (world_of down) [0; 1] (getNFTs (H := metaplex) (select (Some "me") None None None))
  = (Rejected (Err "connection refused"),
     [Issue Orchestrator (some_call (FindByOwnerV2 "me"));
      Reply Orchestrator (some_call (FindByOwnerV2 "me"))]).
Proof.
  by apply (getNFTs_locator_failure (H := metaplex) (world_of down) [0; 1]
              (select (Some "me") None None None) (Err "connection refused")).
Defined.

(** X2: [getNFTs] end to end.  When the locator resolves with a non-empty
    set, the emission goes through and the schedule is complete, [getNFTs]
    returns one record per located record, in the locator's order, each
    with the mint, the metadata address and the on-chain data of its
    located record; and the one emission of the run announces exactly the
    number of records that are returned. *)
Theorem getNFTs_returns_located `{MetadataProgram} (W : World) (sched : list nat)
    (params : INFTParams) (metadatas : list Metadata) (listened : bool) :
  result W (getNFTs_metadatas params) = inr metadatas →
  metadatas ≠ [] →
  W _ (EE_emit "loading" (loading_found (length metadatas))) = inr listened →
  complete W sched (record_tasks metadatas) →
  ∃ out,
    (exec W sched (getNFTs params)).1 = Fulfilled out
    ∧ length out = length metadatas
    ∧ base_props <$> out
      = (λ m, (VPublicKey (new_PublicKey (md_mint (data m))), VPublicKey (pubkey m),
               VMetadataData (data m))) <$> metadatas
    ∧ emissions (exec W sched (getNFTs params)).2
      = [some_call (EE_emit "loading" (loading_found (length out)))].
Proof.
  intros Hres Hne Hemit Hcomplete.
  pose proof (merged_base_props W metadatas) as Hbase.
  assert (length (merged W metadatas) = length metadatas) as Hlen.
  { apply (f_equal length) in Hbase. by rewrite !length_fmap in Hbase. }
  exists (merged W metadatas).
  destruct (getNFTs_trace W sched params) as (after & Htr & Hafter).
  rewrite Hres in Hafter. rewrite decide_False in Hafter by by destruct metadatas.
  destruct Hafter as (evs & -> & Hevs).
  split_and!; [|done|done|].
  - rewrite exec_getNFTs, Hres, exec_getNFTs_located.
    rewrite decide_False by by destruct metadatas. rewrite Hemit.
    destruct (exec W sched (turnMetadatasIntoNFTs metadatas)) as [o tr] eqn:He.
    apply exec_turnMetadatasIntoNFTs in He as (_ & Ho & _). simpl. by apply Ho.
  - rewrite Htr, Hlen. unfold emissions.
    rewrite !issued_app, !filter_app, issued_orchestrator_events.
    rewrite (proj2 (calls_getNFTs_metadatas_locator W params)).
    apply enrichment_issued in Hevs as (_ & Hevs & _). unfold emissions in Hevs.
    by rewrite Hevs.
Qed.

Lemma getNFTs_returns_located_witness :
  ∃ out,
    (exec (world_of ledger) [0; 1; 1; 0; 0; 1; 0; 1; 1; 1; 0; 0; 1]
       (getNFTs (H := metaplex) (select (Some "me") None None None))).1 = Fulfilled out
    ∧ length out = 2.
Proof.
  destruct (getNFTs_returns_located (H := metaplex) (world_of ledger)
              [0; 1; 1; 0; 0; 1; 0; 1; 1; 1; 0; 0; 1]
              (select (Some "me") None None None) [nft "A"; nft "B"] true)
    as (out & Hout & Hlen & _); [done..| |by exists out].
  intros [|[|i]] t Hi; [| |done]; injection Hi as <-; vm_compute; lia.
Defined.

(** X3: the emission comes before any enrichment.  When records were found
    and the call to the progress sink throws, [getNFTs] is rejected with
    that error right after the emission: no enrichment lookup was issued. *)
Theorem getNFTs_emission_failure `{MetadataProgram} (W : World) (sched : list nat)
    (params : INFTParams) (metadatas : list Metadata) (e : Error) :
  result W (getNFTs_metadatas params) = inr metadatas →
  metadatas ≠ [] →
  W _ (EE_emit "loading" (loading_found (length metadatas))) = inl e →
  exec W sched (getNFTs params)
  = (Rejected e,
     orchestrator_events (calls W (getNFTs_metadatas params) ++ [emit_found metadatas]))
  ∧ enrichment_events (exec W sched (getNFTs params)).2 = [].
Proof.
  intros Hres Hne Hemit.
  assert (exec W sched (getNFTs params)
          = (Rejected e,
             orchestrator_events (calls W (getNFTs_metadatas params) ++ [emit_found metadatas])))
    as ->.
  { rewrite exec_getNFTs, Hres, exec_getNFTs_located.
    rewrite decide_False by by destruct metadatas. rewrite Hemit.
    unfold orchestrator_events. by rewrite bind_app. }
  split; [done|]. apply enrichment_events_orchestrator.
Qed.

Lemma getNFTs_emission_failure_witness :
  exec (world_of mute) [0; 0; 0] (getNFTs (H := metaplex) (select None None (Some "A") None))
  = (Rejected (Err "listener failed"),
     [Issue Orchestrator (some_call (FindMany (by_mint "A")));
      Reply Orchestrator (some_call (FindMany (by_mint "A")));
      Issue Orchestrator (emit_found [nft "A"]);
      Reply Orchestrator (emit_found [nft "A"])]).
Proof.
  by apply (getNFTs_emission_failure (H := metaplex) (world_of mute) [0; 0; 0]
              (select None None (Some "A") None) [nft "A"] (Err "listener failed")).
Defined.

(** X4: the order in which the answers arrive does not change what
    [getNFTs] settles with.  Two runs against the same world that both
    settle, under whatever schedules, settle alike: with the same collection
    or with the same error. *)
Theorem getNFTs_schedule_independent `{MetadataProgram} (W : World)
    (sched1 sched2 : list nat) (params : INFTParams) :
  (exec W sched1 (getNFTs params)).1 ≠ Pending →
  (exec W sched2 (getNFTs params)).1 ≠ Pending →
  (exec W sched1 (getNFTs params)).1 = (exec W sched2 (getNFTs params)).1.
Proof.
  rewrite !exec_getNFTs.
  destruct (result W (getNFTs_metadatas params)) as [e|metadatas]; [done|].
  rewrite !exec_getNFTs_located. case_decide; [done|].
  destruct (W _ _) as [e|listened]; [done|].
  destruct (exec W sched1 (turnMetadatasIntoNFTs metadatas)) as [o1 tr1] eqn:He1.
  destruct (exec W sched2 (turnMetadatasIntoNFTs metadatas)) as [o2 tr2] eqn:He2.
  apply exec_turnMetadatasIntoNFTs in He1 as ([->| ->] & _); [done|].
  apply exec_turnMetadatasIntoNFTs in He2 as ([->| ->] & _); done.
Qed.

Lemma getNFTs_schedule_independent_witness :
  (exec (world_of ledger) [0; 0; 0; 0; 0; 0; 1; 1; 1; 1; 1; 1; 1]
     (getNFTs (H := metaplex) (select (Some "me") None None None))).1
  = (exec (world_of ledger) [1; 0; 1; 0; 1; 0; 1; 0; 1; 0; 1; 0; 1]
       (getNFTs (H := metaplex) (select (Some "me") None None None))).1.
Proof.
  assert (∀ o : Outcome (list Obj), (if o is Pending then False else True) → o ≠ Pending)
    as Hsettled by (by intros []).
  apply (getNFTs_schedule_independent (H := metaplex) (world_of ledger));
    apply Hsettled; vm_compute; exact I.
Defined.

(** ** The getters and the deserializer *)

(** X5: [deserializeMetadataOnchain] loses nothing and keeps the order.  The
    located records are recovered from the [metadataPDA] and
    [metadataOnchain] of the base records, there is one base record per
    located record, and in every base record [mint] is the mint of its own
    on-chain data, so that the holder lookup (by [metadataOnchain.mint]) and
    the other lookups (by [mint]) of a record ask about the same mint. *)
Theorem deserializeMetadataOnchain_lossless (metadatas : list Metadata) :
  (λ n, {| pubkey := metadataPDA n; data := metadataOnchain n |})
    <$> deserializeMetadataOnchain metadatas = metadatas
  ∧ length (deserializeMetadataOnchain metadatas) = length metadatas
  ∧ Forall (λ n, mint n = new_PublicKey (md_mint (metadataOnchain n)))
      (deserializeMetadataOnchain metadatas).
Proof.
  unfold deserializeMetadataOnchain. split_and!.
  - rewrite <-list_fmap_compose. rewrite <-(list_fmap_id metadatas) at 2.
    apply list_fmap_ext. intros _ [pk d] _. done.
  - apply length_fmap.
  - apply Forall_fmap, Forall_true. done.
Qed.

(** X6: [getExternalMetadata] makes the one GET of the uri.  It returns the
    body of the response, returns [undefined] when there is no response,
    and raises the error of the request when the request fails: it catches
    nothing itself. *)
Theorem getExternalMetadata_cases (W : World) (uri : string) :
  calls W (getExternalMetadata uri) = [some_call (AxiosGet uri)]
  ∧ (∀ response, W _ (AxiosGet uri) = inr (Some response) →
       result W (getExternalMetadata uri) = inr (VJson (response_data response)))
  ∧ (W _ (AxiosGet uri) = inr None →
       result W (getExternalMetadata uri) = inr VUndefined)
  ∧ (∀ e, W _ (AxiosGet uri) = inl e →
       result W (getExternalMetadata uri) = inl e).
Proof.
  rewrite calls_getExternalMetadata, result_getExternalMetadata.
  split; [done|]. split; [by intros response ->|]. split; [by intros ->|by intros e ->].
Qed.

Lemma getExternalMetadata_cases_witness :
  result (world_of ledger) (getExternalMetadata "https://x/A.json") = inr (VJson "{}")
  ∧ result (world_of down) (getExternalMetadata "https://x/A.json")
    = inl (Err "connection refused").
Proof.
  split.
  - destruct (getExternalMetadata_cases (world_of ledger) "https://x/A.json")
      as (_ & Hbody & _).
    exact (Hbody {| response_data := "{}" |} eq_refl).
  - destruct (getExternalMetadata_cases (world_of down) "https://x/A.json")
      as (_ & _ & _ & Hfail).
    exact (Hfail (Err "connection refused") eq_refl).
Defined.

(** X7: what [getHolderByMint] can return.  An address it returns is the
    address of the first entry of the list that the ledger answered; it
    returns [undefined] exactly when the answer is [null] or an empty list;
    it raises exactly when the ledger call fails, with the error of the
    call. *)
Theorem getHolderByMint_inversion (W : World) (mint : PublicKey) :
  (∀ holder, result W (getHolderByMint mint) = inr (VPublicKey holder) →
     ∃ first rest, W _ (GetTokenLargestAccounts mint) = inr (Some (first :: rest))
                   ∧ address first = holder)
  ∧ (result W (getHolderByMint mint) = inr VUndefined
     ↔ W _ (GetTokenLargestAccounts mint) = inr None
       ∨ W _ (GetTokenLargestAccounts mint) = inr (Some []))
  ∧ (∀ e, result W (getHolderByMint mint) = inl e
          ↔ W _ (GetTokenLargestAccounts mint) = inl e).
Proof.
  rewrite result_getHolderByMint.
  destruct (W _ (GetTokenLargestAccounts mint)) as [e|[[|first rest]|]].
  - split; [by intros holder ?|]. split; [split; [done|by intros [?|?]]|].
    intros e'. split; by intros [= ->].
  - split; [by intros holder ?|]. split; [split; [by right|done]|].
    intros e'. split; by intros ?.
  - split; [intros holder [= <-]; by exists first, rest|].
    split; [split; [done|by intros [?|?]]|].
    intros e'. split; by intros ?.
  - split; [by intros holder ?|]. split; [split; [by left|done]|].
    intros e'. split; by intros ?.
Qed.

Lemma getHolderByMint_inversion_witness :
  ∃ first rest,
    world_of ledger _ (GetTokenLargestAccounts "A") = inr (Some (first :: rest))
    ∧ address first = "holder-of-A".
Proof.
  exact (proj1 (getHolderByMint_inversion (world_of ledger) "A") "holder-of-A" eq_refl).
Defined.

(** ** Edition resolution, further *)

(** X8: [getParentEdition] makes exactly one fetch, of the account at the
    [parent] address recorded in the edition data.  When the account is
    fetched and decodes, the object it returns has that parent address as
    [masterEditionPDA] and the decoded data as [masterEditionData]; a fetch
    that fails and an account that does not decode both make it raise, with
    the error of the fetch or of the decoder. *)
Theorem getParentEdition_cases `{MetadataProgram} (W : World) (editionData : EditionData) :
  let masterEditionPDA := new_PublicKey (parent editionData) in
  calls W (getParentEdition editionData) = [some_call (Account_getInfo masterEditionPDA)]
  ∧ (∀ masterInfo masterEditionData,
       W _ (Account_getInfo masterEditionPDA) = inr masterInfo →
       MasterEdition_data masterEditionPDA masterInfo = inr masterEditionData →
       ∃ o, result W (getParentEdition editionData) = inr o
            ∧ get_prop o "masterEditionPDA" = VPublicKey masterEditionPDA
            ∧ get_prop o "masterEditionData" = VMasterEditionData masterEditionData)
  ∧ (∀ e, W _ (Account_getInfo masterEditionPDA) = inl e →
       result W (getParentEdition editionData) = inl e)
  ∧ (∀ masterInfo e,
       W _ (Account_getInfo masterEditionPDA) = inr masterInfo →
       MasterEdition_data masterEditionPDA masterInfo = inl e →
       result W (getParentEdition editionData) = inl e).
Proof.
  cbv zeta. rewrite calls_getParentEdition, result_getParentEdition. cbv zeta.
  split; [done|]. split_and!.
  - intros masterInfo masterEditionData -> ->. eexists. split; [done|]. by vm_compute.
  - by intros e ->.
  - by intros masterInfo e -> ->.
Qed.

Lemma getParentEdition_cases_witness :
  (∃ o, result (world_of ledger)
          (getParentEdition (H := metaplex)
             {| parent := "parent-of-edition-of-B"; edition := 7 |}) = inr o
        ∧ get_prop o "masterEditionPDA" = VPublicKey "parent-of-edition-of-B"
        ∧ get_prop o "masterEditionData"
          = VMasterEditionData {| supply := 10; maxSupply := None |})
  ∧ result (world_of ledger)
      (getParentEdition (H := metaplex) {| parent := "nowhere"; edition := 1 |})
    = inl (Err "account not found").
Proof.
  split.
  - destruct (getParentEdition_cases (H := metaplex) (world_of ledger)
                {| parent := "parent-of-edition-of-B"; edition := 7 |}) as (_ & Hfound & _).
    exact (Hfound (Some {| info_owner := "metadata-program"; info_data := [6; 10]%Z |})
             {| supply := 10; maxSupply := None |} eq_refl eq_refl).
  - destruct (getParentEdition_cases (H := metaplex) (world_of ledger)
                {| parent := "nowhere"; edition := 1 |}) as (_ & _ & Hfail & _).
    exact (Hfail (Err "account not found") eq_refl).
Defined.

(** X9: the first version of the master edition tag.  A primary account with
    the [MasterEditionV1] tag whose data decodes is classified [MasterV1];
    the object carries the primary address as [masterEditionPDA] and the
    decoded data as [masterEditionData], has no [editionPDA] and no
    [editionData], and the primary account is the only one fetched. *)
Theorem getEditionInfoByMint_MasterEditionV1 `{MetadataProgram} (W : World)
    (mint pda : PublicKey) (info : option AccountInfo)
    (masterEditionData : MasterEditionData) :
  W _ (Edition_getPDA mint) = inr pda →
  W _ (Account_getInfo pda) = inr info →
  leading_tag info = Some MetadataKey_MasterEditionV1 →
  MasterEdition_data pda info = inr masterEditionData →
  run W (getEditionInfoByMint mint)
  = (inr (EditionInfo MasterV1 VUndefined VUndefined (VPublicKey pda)
            (VMasterEditionData masterEditionData)),
     [some_call (Edition_getPDA mint); some_call (Account_getInfo pda)]).
Proof.
  intros Hpda Hinfo Htag Hdata.
  rewrite run_fst_snd, result_getEditionInfoByMint, calls_getEditionInfoByMint.
  rewrite Hpda, Hinfo. cbv zeta. rewrite Htag, Hdata.
  destruct MetadataKey_ne as (Hne1 & Hne2 & Hne3).
  repeat case_decide; try (exfalso; intuition congruence).
  do 3 f_equal. unfold getEnumKeyByEnumValue.
  repeat case_decide; (done || exfalso; intuition congruence).
Qed.

Lemma getEditionInfoByMint_MasterEditionV1_witness :
  run (world_of archive) (getEditionInfoByMint (H := metaplex) "G")
  = (inr (EditionInfo MasterV1 VUndefined VUndefined (VPublicKey "edition-of-G")
            (VMasterEditionData {| supply := 5; maxSupply := None |})),
     [some_call (Edition_getPDA "G"); some_call (Account_getInfo "edition-of-G")]).
Proof.
  exact (getEditionInfoByMint_MasterEditionV1 (H := metaplex) (world_of archive)
           "G" "edition-of-G"
           (Some {| info_owner := "metadata-program"; info_data := [2; 5]%Z |})
           {| supply := 5; maxSupply := None |} eq_refl eq_refl eq_refl eq_refl).
Defined.

(** X10: an account that does not decode makes the resolution raise the
    error of the decoder.  For the [EditionV1] tag this happens before the
    parent is looked up, so no parent fetch is made; for the two master tags
    likewise only the primary account was fetched. *)
Theorem getEditionInfoByMint_decode_failure `{MetadataProgram} (W : World)
    (mint pda : PublicKey) (info : option AccountInfo) (e : Error) :
  W _ (Edition_getPDA mint) = inr pda →
  W _ (Account_getInfo pda) = inr info →
  let primary := [some_call (Edition_getPDA mint); some_call (Account_getInfo pda)] in
  (leading_tag info = Some MetadataKey_EditionV1 →
   Edition_data pda info = inl e →
   run W (getEditionInfoByMint mint) = (inl e, primary))
  ∧ (leading_tag info = Some MetadataKey_MasterEditionV1
     ∨ leading_tag info = Some MetadataKey_MasterEditionV2 →
     MasterEdition_data pda info = inl e →
     run W (getEditionInfoByMint mint) = (inl e, primary)).
Proof.
  intros Hpda Hinfo primary. subst primary.
  rewrite run_fst_snd, result_getEditionInfoByMint, calls_getEditionInfoByMint.
  rewrite Hpda, Hinfo. cbv zeta.
  destruct MetadataKey_ne as (Hne1 & Hne2 & Hne3). split.
  - intros Htag Hdata. rewrite Htag, Hdata. by rewrite !decide_True.
  - intros Htag Hdata. rewrite Hdata.
    repeat case_decide; try done; exfalso; intuition congruence.
Qed.

Lemma getEditionInfoByMint_decode_failure_witness :
  run (world_of ledger) (getEditionInfoByMint (H := metaplex) "D")
  = (inl (Err "malformed master edition"),
     [some_call (Edition_getPDA "D"); some_call (Account_getInfo "edition-of-D")]).
Proof.
  destruct (getEditionInfoByMint_decode_failure (H := metaplex) (world_of ledger)
              "D" "edition-of-D"
              (Some {| info_owner := "metadata-program"; info_data := [6]%Z |})
              (Err "malformed master edition") eq_refl eq_refl) as (_ & Hmaster).
  apply Hmaster; [by right|done].
Defined.

(** X11: a print and its parent.  For a primary account with the
    [EditionV1] tag whose data decodes, when the parent account is fetched
    and decodes, the object returned is classified [PrintV1], has the
    primary address as [editionPDA] and the decoded print data as
    [editionData], and its [masterEditionPDA] is the [parent] address
    recorded in that very [editionData], with the decoded data of the
    account at that address as [masterEditionData].  Three calls were made:
    the derived address, the primary account, the parent account. *)
Theorem getEditionInfoByMint_print_links `{MetadataProgram} (W : World)
    (mint pda : PublicKey) (info masterInfo : option AccountInfo)
    (editionData : EditionData) (masterEditionData : MasterEditionData) :
  W _ (Edition_getPDA mint) = inr pda →
  W _ (Account_getInfo pda) = inr info →
  leading_tag info = Some MetadataKey_EditionV1 →
  Edition_data pda info = inr editionData →
  W _ (Account_getInfo (new_PublicKey (parent editionData))) = inr masterInfo →
  MasterEdition_data (new_PublicKey (parent editionData)) masterInfo = inr masterEditionData →
  run W (getEditionInfoByMint mint)
  = (inr (EditionInfo PrintV1 (VPublicKey pda) (VEditionData editionData)
            (VPublicKey (new_PublicKey (parent editionData)))
            (VMasterEditionData masterEditionData)),
     [some_call (Edition_getPDA mint); some_call (Account_getInfo pda);
      some_call (Account_getInfo (new_PublicKey (parent editionData)))]).
Proof.
  intros Hpda Hinfo Htag Hdata Hmaster Hmdata.
  rewrite run_fst_snd, result_getEditionInfoByMint, calls_getEditionInfoByMint.
  rewrite Hpda, Hinfo. cbv zeta. rewrite Htag, Hdata.
  rewrite result_getParentEdition. cbv zeta. rewrite Hmaster, Hmdata.
  rewrite !decide_True by done. simpl. do 3 f_equal.
  unfold getEnumKeyByEnumValue. by rewrite decide_True.
Qed.

Lemma getEditionInfoByMint_print_links_witness :
  run (world_of ledger) (getEditionInfoByMint (H := metaplex) "B")
  = (inr (EditionInfo PrintV1 (VPublicKey "edition-of-B")
            (VEditionData {| parent := "parent-of-edition-of-B"; edition := 7 |})
            (VPublicKey "parent-of-edition-of-B")
            (VMasterEditionData {| supply := 10; maxSupply := None |})),
     [some_call (Edition_getPDA "B"); some_call (Account_getInfo "edition-of-B");
      some_call (Account_getInfo "parent-of-edition-of-B")]).
Proof.
  exact (getEditionInfoByMint_print_links (H := metaplex) (world_of ledger)
           "B" "edition-of-B"
           (Some {| info_owner := "metadata-program"; info_data := [1; 7]%Z |})
           (Some {| info_owner := "metadata-program"; info_data := [6; 10]%Z |})
           {| parent := "parent-of-edition-of-B"; edition := 7 |}
           {| supply := 10; maxSupply := None |}
           eq_refl eq_refl eq_refl eq_refl eq_refl eq_refl).
Defined.

(** X12: how far an edition resolution goes.  Its first call is always the
    derivation of the edition address; after it come at most two calls,
    both account fetches: the resolution follows the parent link of a print
    once and never looks further up.  When the derivation of the address
    fails, nothing is fetched and the resolution raises that error. *)
Theorem getEditionInfoByMint_calls_bound `{MetadataProgram} (W : World) (mint : PublicKey) :
  (∃ fetches,
     calls W (getEditionInfoByMint mint) = some_call (Edition_getPDA mint) :: fetches
     ∧ length fetches ≤ 2
     ∧ Forall (λ c, ∃ pda, c = some_call (Account_getInfo pda)) fetches)
  ∧ (∀ e, W _ (Edition_getPDA mint) = inl e →
       run W (getEditionInfoByMint mint) = (inl e, [some_call (Edition_getPDA mint)])).
Proof.
  rewrite run_fst_snd, result_getEditionInfoByMint, calls_getEditionInfoByMint.
  split; [|by intros e ->].
  eexists. split; [done|].
  destruct (W _ (Edition_getPDA mint)) as [e|pda]; [by split; [simpl; lia|]|].
  destruct (W _ (Account_getInfo pda)) as [e|info].
  { split; [simpl; lia|]. repeat constructor. by eexists. }
  case_decide; [destruct (Edition_data pda info)|];
    (split; [simpl; lia|]); repeat constructor; by eexists.
Qed.

Lemma getEditionInfoByMint_calls_bound_witness :
  run (world_of down) (getEditionInfoByMint (H := metaplex) "A")
  = (inl (Err "connection refused"), [some_call (Edition_getPDA "A")]).
Proof.
  exact (proj2 (getEditionInfoByMint_calls_bound (H := metaplex) (world_of down) "A")
           (Err "connection refused") eq_refl).
Defined.

(** ** The cost of a run *)

Lemma sum_list_with_seq_bump (f : nat → nat) (i k s n : nat) :
  sum_list_with (λ j, f j + (if decide (j = i) then k else 0)) (seq s n)
  = sum_list_with f (seq s n) + (if decide (s ≤ i < s + n) then k else 0).
Proof.
  revert s. induction n as [|n IH]; intros s; simpl.
  { case_decide; lia. }
  rewrite IH. repeat case_decide; lia.
Qed.

Lemma sum_list_with_le_const {A : Type} (f : A → nat) (c : nat) (l : list A) :
  (∀ x, x ∈ l → f x ≤ c) → sum_list_with f l ≤ c * length l.
Proof.
  induction l as [|x l IH]; intros Hf; simpl; [lia|].
  pose proof (Hf x (list_elem_of_here _ _)).
  assert (sum_list_with f l ≤ c * length l).
  { apply IH. intros y Hy. apply Hf. by apply list_elem_of_further. }
  lia.
Qed.

Lemma sum_list_with_ext_in {A : Type} (f g : A → nat) (l : list A) :
  (∀ x, x ∈ l → f x = g x) → sum_list_with f l = sum_list_with g l.
Proof.
  induction l as [|x l IH]; intros Hfg; simpl; [done|].
  rewrite (Hfg x (list_elem_of_here _ _)), IH; [done|].
  intros y Hy. apply Hfg. by apply list_elem_of_further.
Qed.

(** The requests of a trace are those of its tasks, counted task by task. *)
Lemma issued_by_task (n : nat) (evs : list Event) :
  Forall (λ ev, ∃ i, who ev = RecordTask i ∧ i < n) evs →
  length (issued evs) = sum_list_with (λ i, length (issued (of_task i evs))) (seq 0 n).
Proof.
  induction 1 as [|ev evs (i & Hi & Hlt) _ IH].
  { symmetry. transitivity (0 * length (seq 0 n)); [|done].
    apply Nat.le_antisymm; [|lia]. by apply sum_list_with_le_const. }
  set (k := length (issued [ev])).
  assert (length (issued (ev :: evs)) = length (issued evs) + k) as ->.
  { subst k. destruct ev; simpl; lia. }
  rewrite IH.
  pose proof (sum_list_with_seq_bump (λ j, length (issued (of_task j evs))) i k 0 n) as Hb.
  rewrite decide_True in Hb by lia. rewrite <-Hb.
  apply sum_list_with_ext_in. intros j _. unfold of_task.
  rewrite filter_cons, Hi. subst k.
  destruct (decide (RecordTask i = RecordTask j)) as [[= ->]|Hne].
  - rewrite decide_True by done. destruct ev; simpl; lia.
  - rewrite decide_False by congruence. lia.
Qed.

Lemma issued_task_events (i : nat) (cs : list SomeCall) : issued (task_events i cs) = cs.
Proof. induction cs as [|c cs IH]; [done|]. simpl. by rewrite IH. Qed.

Lemma issued_prefix_length (l1 l2 : list Event) :
  l1 `prefix_of` l2 → length (issued l1) ≤ length (issued l2).
Proof. intros [k ->]. rewrite issued_app, length_app. lia. Qed.

(** A record task makes at least five and at most seven calls. *)
Lemma calls_enrichNFT_length `{MetadataProgram} (W : World) (n : INFT) :
  5 ≤ length (calls W (enrichNFT n)) ≤ 7.
Proof.
  rewrite calls_enrichNFT. cbv zeta. rewrite length_app, calls_getEditionInfoByMint.
  simpl. repeat case_match; simpl; lia.
Qed.

(** X13: what a run of [getNFTs] costs.  When [n] records were located, the
    run issues at most [2 + 7 * n] calls in all: the locator query, the
    emission, and for each record at most seven lookups (holder, token
    account, token mint, external metadata, and up to three calls of the
    edition resolution). *)
Theorem getNFTs_request_bound `{MetadataProgram} (W : World) (sched : list nat)
    (params : INFTParams) (metadatas : list Metadata) :
  result W (getNFTs_metadatas params) = inr metadatas →
  length (issued (exec W sched (getNFTs params)).2) ≤ 2 + 7 * length metadatas.
Proof.
  intros Hres. rewrite exec_getNFTs, Hres, exec_getNFTs_located.
  assert (length (calls W (getNFTs_metadatas params)) ≤ 1) as Hlocate.
  { rewrite calls_getNFTs_metadatas.
    destruct params as [[owner|] [[|c cs]|] [mint|] [updateAuthority|]]; simpl; lia. }
  case_decide.
  { cbn [snd]. rewrite app_nil_r, issued_orchestrator_events. lia. }
  destruct (W _ _) as [e|listened].
  { cbn [snd]. rewrite issued_app, length_app, !issued_orchestrator_events. simpl. lia. }
  destruct (exec W sched (turnMetadatasIntoNFTs metadatas)) as [o tr] eqn:He.
  apply exec_turnMetadatasIntoNFTs in He as (_ & _ & _ & Hwho & Htask). cbn [snd].
  rewrite !issued_app, !length_app, !issued_orchestrator_events. cbn [length].
  assert (length (issued tr) ≤ 7 * length metadatas); [|lia].
  rewrite (issued_by_task (length metadatas) tr Hwho).
  etrans; [apply (sum_list_with_le_const _ 7)|by rewrite length_seq].
  intros i Hi. apply elem_of_seq in Hi.
  destruct (lookup_lt_is_Some_2 (record_tasks metadatas) i) as [t Ht].
  { unfold record_tasks, deserializeMetadataOnchain. rewrite !length_fmap. lia. }
  destruct (Htask i t Ht) as [Hprefix _].
  apply issued_prefix_length in Hprefix. rewrite issued_task_events in Hprefix.
  apply record_tasks_lookup in Ht as (m & _ & ->).
  pose proof (calls_enrichNFT_length W (INFT_of m)). lia.
Qed.

Lemma getNFTs_request_bound_witness :
  length (issued (exec (world_of ledger) [0; 1; 1; 0; 0; 1; 0; 1; 1; 1; 0; 0; 1]
                    (getNFTs (H := metaplex) (select (Some "me") None None None))).2)
  ≤ 2 + 7 * 2.
Proof.
  exact (getNFTs_request_bound (H := metaplex) (world_of ledger)
           [0; 1; 1; 0; 0; 1; 0; 1; 1; 1; 0; 0; 1]
           (select (Some "me") None None None) [nft "A"; nft "B"] eq_refl).
Defined.

(** ** One lookup, one property *)

Lemma getEditionInfoByMint_shape `{MetadataProgram} (W : World) (mint : PublicKey) (o : Obj) :
  result W (getEditionInfoByMint mint) = inr o →
  ∃ t a b c d, o = EditionInfo t a b c d.
Proof.
  rewrite result_getEditionInfoByMint. intros Hres.
  repeat (first [case_match | case_decide]; simplify_eq/=); by eexists _, _, _, _, _.
Qed.

Lemma enriched_record_props (n : INFT) (va vt vs vx : Value) (ed : Obj) :
  ed = ∅ ∨ (∃ t a b c d, ed = EditionInfo t a b c d) →
  let o := spread2 (INFT_obj n)
             (spread2 {[ "mint" := VPublicKey (mint n);
                         "address" := va;
                         "splTokenInfo" := vt;
                         "splMintInfo" := vs;
                         "metadataExternal" := vx ]} ed) in
  get_prop o "address" = va
  ∧ get_prop o "splTokenInfo" = vt
  ∧ get_prop o "splMintInfo" = vs
  ∧ get_prop o "metadataExternal" = vx
  ∧ Forall (λ key, get_prop o key = get_prop ed key)
      ["editionType"; "editionPDA"; "editionData"; "masterEditionPDA"; "masterEditionData"].
Proof.
  intros [->|(t & a & b & c & d & ->)]; cbv zeta;
    (split_and!; [by vm_compute..|repeat constructor; by vm_compute]).
Qed.

(** X14: one lookup, one property.  In a returned record (the only one with
    its mint), each enrichment property comes from its own lookup and from
    no other: it is what that lookup returned, or [undefined] when that
    lookup failed, whatever happened to the other lookups of the record.
    The token account is the one looked up for the [address] of the same
    record.  The five edition properties are those of the object that the
    edition resolution returned, and all [undefined] when it raised. *)
Theorem turnMetadatasIntoNFTs_isolation `{MetadataProgram} (W : World) (sched : list nat)
    (metadatas : list Metadata) (out : list Obj) (i : nat) (m : Metadata) :
  (exec W sched (turnMetadatasIntoNFTs metadatas)).1 = Fulfilled out →
  metadatas !! i = Some m →
  (∀ j m', metadatas !! j = Some m' → md_mint (data m') = md_mint (data m) → j = i) →
  ∃ o, out !! i = Some o
    ∧ let mint := new_PublicKey (md_mint (data m)) in
      let from_lookup key (r : Error + Value) :=
        (∀ v, r = inr v → get_prop o key = v)
        ∧ (∀ e, r = inl e → get_prop o key = VUndefined) in
      let edition_keys :=
        ["editionType"; "editionPDA"; "editionData"; "masterEditionPDA";
         "masterEditionData"] in
      from_lookup "address" (result W (getHolderByMint mint))
      ∧ from_lookup "splTokenInfo"
          (result W (deserializeTokenAccount mint (get_prop o "address")))
      ∧ from_lookup "splMintInfo" (result W (deserializeTokenMint mint))
      ∧ from_lookup "metadataExternal"
          (result W (getExternalMetadata (uri (md_data (data m)))))
      ∧ (∀ found, result W (getEditionInfoByMint mint) = inr found →
           Forall (λ key, get_prop o key = get_prop found key) edition_keys)
      ∧ (∀ e, result W (getEditionInfoByMint mint) = inl e →
           Forall (λ key, get_prop o key = VUndefined) edition_keys).
Proof.
  intros Hout Hi Hunique.
  destruct (exec W sched _) as [o' tr] eqn:He.
  apply exec_turnMetadatasIntoNFTs in He as (Ho & _). simpl in Hout. subst o'.
  destruct Ho as [?|[= ->]]; [done|].
  eexists. split; [by apply merged_lookup|].
  unfold enriched. cbv zeta.
  set (redition := result W (getEditionInfoByMint (mint (INFT_of m)))).
  match goal with
  | |- context [spread2 (INFT_obj ?n)
                  (spread2 {[ "mint" := _; "address" := ?va; "splTokenInfo" := ?vt;
                              "splMintInfo" := ?vs; "metadataExternal" := ?vx ]} ?ed)] =>
    destruct (enriched_record_props n va vt vs vx ed) as (Ha & Ht & Hs & Hx & Hed)
  end.
  { destruct redition as [e|found] eqn:Hr; [by left|right].
    by apply (getEditionInfoByMint_shape W (mint (INFT_of m))). }
  cbv zeta in Ha, Ht, Hs, Hx, Hed.
  rewrite Ha, Ht, Hs, Hx. clear Ha Ht Hs Hx.
  cbn [INFT_of mint metadataOnchain] in *.
  split_and!; try (by intros ? ->).
  - intros found Hfound. subst redition. rewrite Hfound in Hed |- *. exact Hed.
  - intros e Hfail. subst redition. rewrite Hfail in Hed |- *.
    eapply Forall_impl; [exact Hed|]. by intros key ->.
Qed.

(** The record of mint G on the ledger [archive]: the external metadata
    cannot be fetched, and only that property is [undefined]. *)
Lemma turnMetadatasIntoNFTs_isolation_witness :
  ∃ out o,
    (exec (world_of archive) [0; 0; 0; 0; 0; 0]
       (turnMetadatasIntoNFTs (H := metaplex) [nft "G"])).1 = Fulfilled out
    ∧ out !! 0 = Some o
    ∧ get_prop o "address" = VPublicKey "holder-of-G"
    ∧ get_prop o "metadataExternal" = VUndefined
    ∧ get_prop o "splMintInfo" = VMintInfo {| mint_supply := 1; mint_decimals := 0 |}.
Proof.
  assert (if (exec (world_of archive) [0; 0; 0; 0; 0; 0]
                (turnMetadatasIntoNFTs (H := metaplex) [nft "G"])).1
          is Fulfilled _ then True else False) as Hfulfilled by (vm_compute; exact I).
  destruct (exec (world_of archive) [0; 0; 0; 0; 0; 0]
              (turnMetadatasIntoNFTs (H := metaplex) [nft "G"])).1
    as [out|e|] eqn:Hout; [|done..].
  destruct (turnMetadatasIntoNFTs_isolation (H := metaplex) (world_of archive)
              [0; 0; 0; 0; 0; 0] [nft "G"] out 0 (nft "G") Hout eq_refl)
    as (o & Ho & Haddress & _ & Hmint & Hexternal & _).
  { intros [|j] m' Hj _; [done|]. by destruct j. }
  exists out, o. split; [done|]. split; [done|]. split_and!.
  - exact (proj1 Haddress (VPublicKey "holder-of-G") eq_refl).
  - exact (proj2 Hexternal (Err "404") eq_refl).
  - exact (proj1 Hmint (VMintInfo {| mint_supply := 1; mint_decimals := 0 |}) eq_refl).
Defined.
